(** * rive-android: the worker-thread pool and one JNI binding

    A shallow embedding of
    - [cpp/src/helpers/worker_thread.cpp] ([ThreadManager::getInstance],
      [ThreadManager::acquireThread], [ThreadManager::releaseThread]) and
    - [cpp/src/bindings/bindings_state_machine_instance.cpp]
      ([..._StateMachineInstance_cppInputCount]).

    Heap objects are addressed by natural numbers: the k-th object created by
    [new] of a class has address k, and [nullptr] is [None].  Code that
    mutates the statics, the manager objects and the worker objects is
    written in a small state-and-failure monad over [World]; every primitive
    step appends an [Event] to the world's trace, so that the order of the
    steps of a call can be stated. *)

From Equations Require Import Equations.
From stdpp Require Import base option numbers list strings.

Set Default Proof Using "Type".
Open Scope Z_scope.
Open Scope nat_scope.

(** ** Data *)

(** Modelled from the spec: the [Affinity] enumeration is declared in a header
    that is not part of the sources; the spec says there are two affinity
    classes, and the code names one of them [Affinity::Odd]. *)
Inductive Affinity : Type := Even | Odd.

#[global] Instance Affinity_eq_dec : EqDecision Affinity.
Proof. solve_decision. Defined.

(** Addresses of heap objects. *)
Definition ptr : Type := nat.

(** A [std::function<void()>] is opaque to the pool: it is identified by a
    number and its invocation is recorded in the trace. *)
Definition Callback : Type := nat.

(** A queued work item, likewise opaque. *)
Definition Task : Type := nat.

(** Modelled from the spec: the class [WorkerThread] is declared in
    [helpers/worker_thread.hpp], which is not part of the sources.  The spec
    gives a Worker a name, an affinity tag fixed at creation, an is-working
    flag and a task queue. *)
Record WorkerThread : Type := mkWorkerThread {
  mName : string;
  mAffinity : Affinity;
  mIsWorking : bool;
  mWorkQueue : list Task
}.

(** The one data member of [ThreadManager] that the code uses:
    [mThreadPool], a [std::stack] whose top is the head of the list. *)
Record ThreadManager : Type := mkThreadManager {
  mThreadPool : list ptr
}.

Inductive Event : Type :=
| EvLock                                (* mMutex.lock(), by a lock_guard *)
| EvUnlock                              (* mMutex.unlock(), at scope exit *)
| EvTestInstance (isNull : bool)        (* mInstance == nullptr *)
| EvNewManager (p : ptr)                (* new ThreadManager() *)
| EvNewWorker (p : ptr) (name : string) (a : Affinity)
| EvPop (p : ptr)                       (* mThreadPool.pop() removed p *)
| EvPush (p : ptr)                      (* mThreadPool.push(p) *)
| EvSetIsWorking (p : ptr) (b : bool)   (* the flag of p becomes b *)
| EvReleaseQueue (p : ptr)              (* the queue of p is flushed *)
| EvRun (cb : Callback).                (* a callback is invoked *)

#[global] Instance Event_eq_dec : EqDecision Event.
Proof. solve_decision. Defined.

Record World : Type := mkWorld {
  mInstance : option ptr;          (* static ThreadManager* mInstance *)
  mMutex : bool;                   (* static std::mutex mMutex; true = held *)
  managers : list ThreadManager;   (* the ThreadManager objects *)
  workers : list WorkerThread;     (* the WorkerThread objects *)
  trace : list Event
}.

(** The state at program start: [mInstance{nullptr}], a free mutex, no
    objects. *)
Definition startup : World := mkWorld None false [] [] [].

Definition with_mInstance (i : option ptr) (s : World) : World :=
  mkWorld i (mMutex s) (managers s) (workers s) (trace s).
Definition with_mMutex (b : bool) (s : World) : World :=
  mkWorld (mInstance s) b (managers s) (workers s) (trace s).
Definition with_managers (ms : list ThreadManager) (s : World) : World :=
  mkWorld (mInstance s) (mMutex s) ms (workers s) (trace s).
Definition with_workers (ws : list WorkerThread) (s : World) : World :=
  mkWorld (mInstance s) (mMutex s) (managers s) ws (trace s).
Definition log (es : list Event) (s : World) : World :=
  mkWorld (mInstance s) (mMutex s) (managers s) (workers s) (trace s ++ es).

(** ** The monad *)

(** [None] stands for a call that does not return normally: a dereference of
    an address that holds no object, [top] of an empty stack, or locking a
    [std::mutex] that is already held. *)
Definition M (A : Type) : Type := World -> option (A * World).

Definition ret {A : Type} (a : A) : M A := fun s => Some (a, s).

Definition bind {A B : Type} (m : M A) (k : A -> M B) : M B :=
  fun s => match m s with
           | Some (a, s') => k a s'
           | None => None
           end.

Declare Scope pool_scope.
Delimit Scope pool_scope with pool.
Notation "'let*' x := m 'in' k" := (bind m (fun x => k))
  (at level 10, x name, m at level 100, k at level 200) : pool_scope.
Notation "m >> k" := (bind m (fun _ => k))
  (at level 80, right associativity) : pool_scope.
Open Scope pool_scope.

(** ** Primitive steps *)

(** [std::lock_guard<std::mutex> lock(mMutex)]: constructor and destructor. *)
Definition lock_guard : M unit := fun s =>
  if mMutex s then None else Some (tt, log [EvLock] (with_mMutex true s)).

Definition unlock_guard : M unit := fun s =>
  Some (tt, log [EvUnlock] (with_mMutex false s)).

(** [mInstance == nullptr] *)
Definition instance_is_null : M bool := fun s =>
  let b := bool_decide (mInstance s = None) in
  Some (b, log [EvTestInstance b] s).

(** [mInstance = new ThreadManager()]: the new manager's pool is empty. *)
Definition new_ThreadManager : M ptr := fun s =>
  let p := length (managers s) in
  Some (p, log [EvNewManager p]
             (with_managers (managers s ++ [mkThreadManager []]) s)).

Definition set_mInstance (p : ptr) : M unit := fun s =>
  Some (tt, with_mInstance (Some p) s).

Definition get_mInstance : M (option ptr) := fun s => Some (mInstance s, s).

(** [mThreadPool.empty()], [.top()], [.pop()], [.push(thread)] on the
    manager at [this]. *)
Definition pool_empty (this : ptr) : M bool := fun s =>
  match managers s !! this with
  | Some m => Some (bool_decide (mThreadPool m = []), s)
  | None => None
  end.

Definition pool_top (this : ptr) : M ptr := fun s =>
  match managers s !! this with
  | Some (mkThreadManager (t :: _)) => Some (t, s)
  | _ => None
  end.

Definition pool_pop (this : ptr) : M unit := fun s =>
  match managers s !! this with
  | Some (mkThreadManager (t :: rest)) =>
      Some (tt, log [EvPop t]
                  (with_managers (<[this := mkThreadManager rest]> (managers s)) s))
  | _ => None
  end.

Definition pool_push (this : ptr) (thread : ptr) : M unit := fun s =>
  match managers s !! this with
  | Some m =>
      Some (tt, log [EvPush thread]
                  (with_managers
                     (<[this := mkThreadManager (thread :: mThreadPool m)]> (managers s)) s))
  | None => None
  end.

(** Modelled from the spec: the constructor of [WorkerThread] is in the
    missing header.  A Worker is created with the given name and affinity
    tag; it starts not working ("Idle -> Working on acquire") with an empty
    queue. *)
Definition new_WorkerThread (name : string) (a : Affinity) : M ptr := fun s =>
  let p := length (workers s) in
  Some (p, log [EvNewWorker p name a]
             (with_workers (workers s ++ [mkWorkerThread name a false []]) s)).

(** Modelled from the spec: [WorkerThread::setIsWorking] is in the missing
    header.  "toggles whether the Worker is considered lent out; the optional
    callback runs once, synchronized with the state flip". *)
Definition setIsWorking (thread : ptr) (isIt : bool) (cb : option Callback) : M unit :=
  fun s =>
    match workers s !! thread with
    | Some w =>
        let w' := mkWorkerThread (mName w) (mAffinity w) isIt (mWorkQueue w) in
        Some (tt, log (EvSetIsWorking thread isIt ::
                       match cb with Some c => [EvRun c] | None => [] end)
                    (with_workers (<[thread := w']> (workers s)) s))
    | None => None
    end.

(** Modelled from the spec: [WorkerThread::releaseQueue] is in the missing
    header.  "drains any remaining tasks (or discards them ...) and runs a
    release callback before the Worker is returned to the pool".  Either
    policy leaves the queue empty. *)
Definition releaseQueue (thread : ptr) (onRelease : Callback) : M unit :=
  fun s =>
    match workers s !! thread with
    | Some w =>
        let w' := mkWorkerThread (mName w) (mAffinity w) (mIsWorking w) [] in
        Some (tt, log [EvReleaseQueue thread; EvRun onRelease]
                    (with_workers (<[thread := w']> (workers s)) s))
    | None => None
    end.

(** ** The three functions of worker_thread.cpp *)

(** [ThreadManager* ThreadManager::getInstance()] *)
Definition getInstance : M (option ptr) :=
  lock_guard >>
  let* isNull := instance_is_null in
  (if isNull then (let* p := new_ThreadManager in set_mInstance p) else ret tt) >>
  let* r := get_mInstance in
  unlock_guard >>
  ret r.

(** [WorkerThread<EGLThreadState>* ThreadManager::acquireThread(name, onAcquire)] *)
Definition acquireThread (this : ptr) (name : string) (onAcquire : Callback) : M ptr :=
  lock_guard >>
  let* isEmpty := pool_empty this in
  let* thread :=
    (if isEmpty then new_WorkerThread name Odd
     else (let* t := pool_top this in pool_pop this >> ret t)) in
  setIsWorking thread true (Some onAcquire) >>
  unlock_guard >>
  ret thread.

(** [void ThreadManager::releaseThread(thread, onRelease)] *)
Definition releaseThread (this : ptr) (thread : ptr) (onRelease : Callback) : M unit :=
  lock_guard >>
  setIsWorking thread false None >>
  releaseQueue thread onRelease >>
  pool_push this thread >>
  unlock_guard.

(** ** The JNI binding *)

(** Conversion of an integer value to a signed two's-complement type of
    [bits] bits. *)
Definition to_signed (bits : Z) (x : Z) : Z :=
  ((x + 2 ^ (bits - 1)) mod 2 ^ bits - 2 ^ (bits - 1))%Z.

Definition to_jlong (x : Z) : Z := to_signed 64 x.
Definition to_jint (x : Z) : Z := to_signed 32 x.

(** [rive::StateMachineInstance] belongs to rive-cpp; the binding uses only
    its [inputCount()], an unsigned count. *)
Record StateMachineInstance : Type := mkStateMachineInstance {
  inputCount : N
}.

(** [JNIEXPORT jint JNICALL ..._StateMachineInstance_cppInputCount(env, thisObj, ref)]:
    [return (jlong)stateMachineInstance->inputCount();] in a function whose
    return type is [jint]. *)
Definition cppInputCount (stateMachineInstance : StateMachineInstance) : Z :=
  to_jint (to_jlong (Z.of_N (inputCount stateMachineInstance))).

(** ** Observations on a world *)

(** The idle pool of the manager at [this]. *)
Definition poolOf (s : World) (this : ptr) : option (list ptr) :=
  mThreadPool <$> managers s !! this.

(** The is-working flag of the worker at [p]. *)
Definition isWorking (s : World) (p : ptr) : option bool :=
  mIsWorking <$> workers s !! p.

(** How many times the callback [cb] is invoked in a run of events. *)
Definition runs (cb : Callback) (es : list Event) : nat :=
  length (filter (λ e, e = EvRun cb) es).

(** How many times the event [e] occurs in a run of events. *)
Definition occurrences (e : Event) (es : list Event) : nat :=
  length (filter (λ x, x = e) es).

(** How many [ThreadManager] constructions a run of events holds. *)
Definition isNewManager (e : Event) : bool :=
  match e with EvNewManager _ => true | _ => false end.
Definition constructions (es : list Event) : nat :=
  length (filter (λ e, isNewManager e = true) es).

(** A worker record with its flag set, and with its queue flushed. *)
Definition flagged (b : bool) (w : WorkerThread) : WorkerThread :=
  mkWorkerThread (mName w) (mAffinity w) b (mWorkQueue w).
Definition released (w : WorkerThread) : WorkerThread :=
  mkWorkerThread (mName w) (mAffinity w) false [].

(** [n] calls of [getInstance] in a row, with what each returned. *)
Fixpoint getInstances (n : nat) : M (list (option ptr)) :=
  match n with
  | 0 => ret []
  | S k => let* r := getInstance in
           let* rs := getInstances k in
           ret (r :: rs)
  end.

(** ** Sequences of calls on one manager *)

Inductive Call : Type :=
| CallAcquire (name : string) (onAcquire : Callback)
| CallRelease (thread : ptr) (onRelease : Callback).

(** The callers' side.  The manager keeps no record of the Workers it has
    lent out ("tracked by the caller holding a reference, not by the
    Manager"), so a run of calls carries it along: a ledger with one entry per
    Worker returned by [acquireThread] and not handed to [releaseThread]
    since. *)
Fixpoint unlend (thread : ptr) (lent : list ptr) : list ptr :=
  match lent with
  | [] => []
  | p :: rest => if decide (p = thread) then rest else p :: unlend thread rest
  end.

Definition call (this : ptr) (c : Call) (st : World * list ptr)
  : option (World * list ptr) :=
  match c with
  | CallAcquire name onAcquire =>
      match acquireThread this name onAcquire st.1 with
      | Some (thread, s') => Some (s', thread :: st.2)
      | None => None
      end
  | CallRelease thread onRelease =>
      match releaseThread this thread onRelease st.1 with
      | Some (_, s') => Some (s', unlend thread st.2)
      | None => None
      end
  end.

Fixpoint run (this : ptr) (calls : list Call) (st : World * list ptr)
  : option (World * list ptr) :=
  match calls with
  | [] => Some st
  | c :: rest =>
      match call this c st with
      | Some st' => run this rest st'
      | None => None
      end
  end.

(** A caller keeps to the lending discipline when it releases only Workers
    that are lent out at the time of the call. *)
Definition permitted (c : Call) (lent : list ptr) : bool :=
  match c with
  | CallAcquire _ _ => true
  | CallRelease thread _ => bool_decide (thread ∈ lent)
  end.

Fixpoint disciplined (this : ptr) (calls : list Call) (st : World * list ptr)
  : bool :=
  match calls with
  | [] => true
  | c :: rest =>
      permitted c st.2 &&
      match call this c st with
      | Some st' => disciplined this rest st'
      | None => true
      end
  end.

(** The pool of [this] and the ledger together hold every Worker exactly
    once; the mutex is free between calls. *)
Definition pool_ledger_inv (this : ptr) (st : World * list ptr) : Prop :=
  mMutex st.1 = false ∧
  ∃ pl, poolOf st.1 this = Some pl ∧
        NoDup (pl ++ st.2) ∧
        ∀ p, p ∈ pl ++ st.2 ↔ p < length (workers st.1).

(** The is-working flags say what the ledger says: a Worker is marked working
    exactly when it is lent out. *)
Definition flags_follow_ledger (st : World * list ptr) : Prop :=
  ∀ p w, workers st.1 !! p = Some w → (mIsWorking w = true ↔ p ∈ st.2).

(** A run of [acquireThread] calls only, one per name and callback. *)
Definition acquires (reqs : list (string * Callback)) : list Call :=
  (λ r, CallAcquire r.1 r.2) <$> reqs.

(** The affinity tags of the Workers, in the order of their construction. *)
Definition tags (s : World) : list Affinity := mAffinity <$> workers s.

(** Whether adjacent tags differ all along a list. *)
Fixpoint alternating (l : list Affinity) : bool :=
  match l with
  | a :: rest =>
      match rest with
      | b :: _ => bool_decide (a ≠ b) && alternating rest
      | [] => true
      end
  | [] => true
  end.

(** The world after the first [getInstance] of a program: one manager, at
    address 0, with an empty pool. *)
Definition booted : World :=
  mkWorld (Some 0) false [mkThreadManager []] []
    [EvLock; EvTestInstance true; EvNewManager 0; EvUnlock].

(** The world after one Worker was acquired from the manager of [booted] and
    released again: the Worker idles in the pool. *)
Definition one_idle : World :=
  mkWorld (Some 0) false [mkThreadManager [0]]
    [mkWorkerThread "render-1" Odd false []]
    (trace booted ++
     [EvLock; EvNewWorker 0 "render-1" Odd; EvSetIsWorking 0 true; EvRun 1; EvUnlock;
      EvLock; EvSetIsWorking 0 false; EvReleaseQueue 0; EvRun 2; EvPush 0; EvUnlock]).

(** A world with one Worker that its owner constructed itself; the manager of
    [booted] has never lent it. *)
Definition own_worker : World :=
  with_workers [mkWorkerThread "own" Even false []] booted.

(** The world after two Workers were acquired from the manager of [booted]:
    both are lent out. *)
Definition two_lent : World :=
  mkWorld (Some 0) false [mkThreadManager []]
    [mkWorkerThread "render-1" Odd true [];
     mkWorkerThread "render-2" Odd true []]
    (trace booted ++
     [EvLock; EvNewWorker 0 "render-1" Odd; EvSetIsWorking 0 true; EvRun 1; EvUnlock;
      EvLock; EvNewWorker 1 "render-2" Odd; EvSetIsWorking 1 true; EvRun 2; EvUnlock]).

(** ** Calls of any of the three functions *)

Inductive ApiCall : Type :=
| ApiGetInstance
| ApiAcquire (this : ptr) (name : string) (onAcquire : Callback)
| ApiRelease (this : ptr) (thread : ptr) (onRelease : Callback).

(** One call, its result dropped. *)
Definition api (c : ApiCall) (s : World) : option World :=
  match c with
  | ApiGetInstance => snd <$> getInstance s
  | ApiAcquire this name onAcquire => snd <$> acquireThread this name onAcquire s
  | ApiRelease this thread onRelease => snd <$> releaseThread this thread onRelease s
  end.

Fixpoint api_run (cs : list ApiCall) (s : World) : option World :=
  match cs with
  | [] => Some s
  | c :: rest =>
      match api c s with
      | Some s' => api_run rest s'
      | None => None
      end
  end.

(** [mInstance] is null or the address of a manager. *)
Definition instance_valid (s : World) : Prop :=
  ∀ p, mInstance s = Some p → is_Some (managers s !! p).

(** A call held the mutex from its first step to its last: the mutex was free
    before and is free after, and the events of the call are one [EvLock],
    steps that neither lock nor unlock, and one [EvUnlock]. *)
Definition locked_throughout (s s' : World) : Prop :=
  mMutex s = false ∧ mMutex s' = false ∧
  ∃ es, trace s' = trace s ++ EvLock :: es ++ [EvUnlock] ∧
        (EvLock ∉ es) ∧ (EvUnlock ∉ es).

(** A run of [releaseThread] calls only, one per Worker and callback. *)
Definition releases (rels : list (ptr * Callback)) : list Call :=
  (λ r, CallRelease r.1 r.2) <$> rels.

(** The largest number of Workers lent out at any moment of a run, the start
    and the end included. *)
Fixpoint peak_loans (this : ptr) (calls : list Call) (st : World * list ptr)
  : nat :=
  match calls with
  | [] => length st.2
  | c :: rest =>
      length st.2 `max`
      match call this c st with
      | Some st' => peak_loans this rest st'
      | None => 0
      end
  end.

(** ** The test file: Factorial *)

(** The range of [int]. *)
Definition INT_MIN : Z := (- 2 ^ 31)%Z.
Definition INT_MAX : Z := (2 ^ 31 - 1)%Z.

(** [a * b] on [int]: signed overflow is undefined behaviour, [None]. *)
Definition int_mul (a b : Z) : option Z :=
  if bool_decide (INT_MIN ≤ a * b ≤ INT_MAX)%Z then Some (a * b)%Z else None.

(** [static int Factorial(int number)]:
    [return number <= 1 ? 1 : Factorial(number - 1) * number;]
    ([number - 1] cannot overflow where it is evaluated, [number] being
    above 1). *)
Equations? Factorial (number : Z) : option Z by wf (Z.to_nat number) lt :=
  Factorial number with decide (Z.le number 1) := {
    | left _ => Some 1%Z
    | right _ => match Factorial (number - 1) with
                 | Some r => int_mul r number
                 | None => None
                 end }.
Proof. lia. Qed.

(** ** Native handles *)

(** [(jlong)pointer]: the address, an unsigned value, converted to [jlong]. *)
Definition jlong_of_pointer (address : Z) : Z := to_jlong address.

(** The cast of [ref] to [rive::StateMachineInstance] pointer: the [jlong]
    converted to a pointer of [ptr_bits] bits. *)
Definition pointer_of_jlong (ptr_bits : Z) (ref : Z) : Z :=
  (ref mod 2 ^ ptr_bits)%Z.

(** * Properties *)

(** ** Small checks of the embedding *)

Example getInstance_startup :
  getInstance startup =
  Some (Some 0, mkWorld (Some 0) false [mkThreadManager []] []
                  [EvLock; EvTestInstance true; EvNewManager 0; EvUnlock]).
Proof. reflexivity. Qed.

(** ** Equations of the three functions *)

Ltac world s := destruct s as [inst mtx mgrs wks tr]; simpl in *; subst.

Lemma acquireThread_new this name cb s m :
  mMutex s = false →
  managers s !! this = Some m →
  mThreadPool m = [] →
  acquireThread this name cb s =
  Some (length (workers s),
        mkWorld (mInstance s) false (managers s)
          (workers s ++ [mkWorkerThread name Odd true []])
          (trace s ++ [EvLock; EvNewWorker (length (workers s)) name Odd;
                       EvSetIsWorking (length (workers s)) true; EvRun cb;
                       EvUnlock])).
Proof.
  intros Hm Hthis Hpool. world s. destruct m as [pl]; simpl in *; subst.
  unfold acquireThread, bind, lock_guard, pool_empty; simpl. rewrite Hthis; simpl.
  unfold setIsWorking; simpl.
  rewrite list_lookup_middle by done. simpl.
  rewrite insert_app_r_alt by done. rewrite Nat.sub_diag. simpl.
  unfold log; simpl. by rewrite <- !app_assoc.
Qed.

Lemma acquireThread_reuse this name cb s t rest w :
  mMutex s = false →
  managers s !! this = Some (mkThreadManager (t :: rest)) →
  workers s !! t = Some w →
  acquireThread this name cb s =
  Some (t,
        mkWorld (mInstance s) false
          (<[this := mkThreadManager rest]> (managers s))
          (<[t := flagged true w]> (workers s))
          (trace s ++ [EvLock; EvPop t; EvSetIsWorking t true; EvRun cb; EvUnlock])).
Proof.
  intros Hm Hthis Hw. world s.
  unfold acquireThread, bind, lock_guard, pool_empty, pool_top, pool_pop; simpl.
  repeat (progress (rewrite ?Hthis; simpl)).
  unfold setIsWorking; simpl. rewrite Hw; simpl.
  unfold log; simpl. by rewrite <- !app_assoc.
Qed.

Lemma releaseThread_eq this thread cb s m w :
  mMutex s = false →
  managers s !! this = Some m →
  workers s !! thread = Some w →
  releaseThread this thread cb s =
  Some (tt,
        mkWorld (mInstance s) false
          (<[this := mkThreadManager (thread :: mThreadPool m)]> (managers s))
          (<[thread := released w]> (workers s))
          (trace s ++ [EvLock; EvSetIsWorking thread false; EvReleaseQueue thread;
                       EvRun cb; EvPush thread; EvUnlock])).
Proof.
  intros Hm Hthis Hw. world s.
  unfold releaseThread, bind, lock_guard, unlock_guard, setIsWorking, releaseQueue, pool_push; simpl.
  rewrite Hw; simpl.
  rewrite list_lookup_insert_eq by (eapply lookup_lt_Some; eassumption). simpl.
  rewrite Hthis; simpl. rewrite list_insert_insert_eq.
  unfold log; simpl. by rewrite <- !app_assoc.
Qed.

(** The calls that do not return: a held mutex, a [this] that is no manager,
    a [thread] that is no worker. *)
Lemma acquireThread_held this name cb s :
  mMutex s = true → acquireThread this name cb s = None.
Proof. intros H. unfold acquireThread, bind, lock_guard. by rewrite H. Qed.

Lemma acquireThread_no_manager this name cb s :
  managers s !! this = None → acquireThread this name cb s = None.
Proof.
  intros H. unfold acquireThread, bind, lock_guard, pool_empty.
  destruct (mMutex s); [done|]. simpl. by rewrite H.
Qed.

Lemma acquireThread_dangling this name cb s t rest :
  managers s !! this = Some (mkThreadManager (t :: rest)) →
  workers s !! t = None →
  acquireThread this name cb s = None.
Proof.
  intros Hthis Hw.
  unfold acquireThread, bind, lock_guard, pool_empty, pool_top, pool_pop.
  destruct (mMutex s); [done|]. simpl.
  repeat (progress (rewrite ?Hthis; simpl)).
  unfold setIsWorking. simpl. by rewrite Hw.
Qed.

Lemma releaseThread_held this thread cb s :
  mMutex s = true → releaseThread this thread cb s = None.
Proof. intros H. unfold releaseThread, bind, lock_guard. by rewrite H. Qed.

Lemma releaseThread_dangling this thread cb s :
  workers s !! thread = None → releaseThread this thread cb s = None.
Proof.
  intros H. unfold releaseThread, bind, lock_guard, setIsWorking.
  destruct (mMutex s); [done|]. simpl. by rewrite H.
Qed.

Lemma releaseThread_no_manager this thread cb s :
  managers s !! this = None → releaseThread this thread cb s = None.
Proof.
  intros H. destruct (mMutex s) eqn:Hm; [by apply releaseThread_held|].
  destruct (workers s !! thread) as [w|] eqn:Hw; [|by apply releaseThread_dangling].
  world s.
  unfold releaseThread, bind, lock_guard, unlock_guard, setIsWorking,
    releaseQueue, pool_push; simpl.
  rewrite Hw; simpl.
  rewrite list_lookup_insert_eq by (eapply lookup_lt_Some; eassumption). simpl.
  by rewrite H.
Qed.

(** What a returning call did. *)
Lemma acquireThread_inv this name cb s t s' :
  acquireThread this name cb s = Some (t, s') →
  mMutex s = false ∧
  ∃ m, managers s !! this = Some m ∧
    ((mThreadPool m = [] ∧ t = length (workers s) ∧
      s' = mkWorld (mInstance s) false (managers s)
             (workers s ++ [mkWorkerThread name Odd true []])
             (trace s ++ [EvLock; EvNewWorker t name Odd;
                          EvSetIsWorking t true; EvRun cb; EvUnlock]))
     ∨
     (∃ rest w, mThreadPool m = t :: rest ∧ workers s !! t = Some w ∧
      s' = mkWorld (mInstance s) false
             (<[this := mkThreadManager rest]> (managers s))
             (<[t := flagged true w]> (workers s))
             (trace s ++ [EvLock; EvPop t; EvSetIsWorking t true; EvRun cb;
                          EvUnlock]))).
Proof.
  intros Hacq.
  destruct (mMutex s) eqn:Hm; [by rewrite acquireThread_held in Hacq|].
  destruct (managers s !! this) as [[pl]|] eqn:Hthis;
    [|by rewrite acquireThread_no_manager in Hacq].
  split; [done|]. eexists; split; [done|]. simpl.
  destruct pl as [|top rest].
  - left. erewrite acquireThread_new in Hacq by done.
    by simplify_eq.
  - right. destruct (workers s !! top) as [w|] eqn:Hw;
      [|by erewrite acquireThread_dangling in Hacq].
    erewrite acquireThread_reuse in Hacq by done.
    simplify_eq. by exists rest, w.
Qed.

Lemma releaseThread_inv this thread cb s u s' :
  releaseThread this thread cb s = Some (u, s') →
  mMutex s = false ∧
  ∃ m w, managers s !! this = Some m ∧ workers s !! thread = Some w ∧
    s' = mkWorld (mInstance s) false
           (<[this := mkThreadManager (thread :: mThreadPool m)]> (managers s))
           (<[thread := released w]> (workers s))
           (trace s ++ [EvLock; EvSetIsWorking thread false;
                        EvReleaseQueue thread; EvRun cb; EvPush thread;
                        EvUnlock]).
Proof.
  intros Hrel.
  destruct (mMutex s) eqn:Hm; [by rewrite releaseThread_held in Hrel|].
  destruct (managers s !! this) as [m|] eqn:Hthis;
    [|by rewrite releaseThread_no_manager in Hrel].
  destruct (workers s !! thread) as [w|] eqn:Hw;
    [|by rewrite releaseThread_dangling in Hrel].
  erewrite releaseThread_eq in Hrel by done.
  simplify_eq. split; [done|]. by exists m, w.
Qed.

Lemma getInstance_first s :
  mMutex s = false →
  mInstance s = None →
  getInstance s =
  Some (Some (length (managers s)),
        mkWorld (Some (length (managers s))) false
          (managers s ++ [mkThreadManager []]) (workers s)
          (trace s ++ [EvLock; EvTestInstance true;
                       EvNewManager (length (managers s)); EvUnlock])).
Proof.
  intros Hm Hi. world s.
  unfold getInstance, bind, lock_guard; simpl.
  unfold log; simpl. by rewrite <- !app_assoc.
Qed.

Lemma getInstance_again s p :
  mMutex s = false →
  mInstance s = Some p →
  getInstance s =
  Some (Some p,
        mkWorld (Some p) false (managers s) (workers s)
          (trace s ++ [EvLock; EvTestInstance false; EvUnlock])).
Proof.
  intros Hm Hi. world s.
  unfold getInstance, bind, lock_guard; simpl.
  unfold log; simpl. by rewrite <- !app_assoc.
Qed.

Example booted_is_first_getInstance : getInstance startup = Some (Some 0, booted).
Proof. reflexivity. Qed.

Example one_idle_is_acquire_release :
  run 0 [CallAcquire "render-1" 1; CallRelease 0 2] (booted, []) = Some (one_idle, []).
Proof. reflexivity. Qed.

Example acquire_release_acquire :
  (snd <$> run 0 [CallAcquire "render-1" 1; CallRelease 0 2; CallAcquire "render-1" 3]
     (booted, [])) = Some [0].
Proof. reflexivity. Qed.

(** ** Helper facts *)

Lemma poolOf_insert s this ms pl i w t :
  managers s !! this = Some ms →
  poolOf (mkWorld i false (<[this := mkThreadManager pl]> (managers s)) w t) this
  = Some pl.
Proof.
  intros H. unfold poolOf; simpl.
  by rewrite list_lookup_insert_eq by (eapply lookup_lt_Some; eassumption).
Qed.

Lemma runs_acquire_new cb p name :
  runs cb [EvLock; EvNewWorker p name Odd; EvSetIsWorking p true; EvRun cb; EvUnlock] = 1.
Proof. unfold runs. repeat (rewrite filter_cons; case_decide; simplify_eq). done. Qed.

Lemma runs_acquire_reuse cb p :
  runs cb [EvLock; EvPop p; EvSetIsWorking p true; EvRun cb; EvUnlock] = 1.
Proof. unfold runs. repeat (rewrite filter_cons; case_decide; simplify_eq). done. Qed.

(** ** acquireThread *)

(** C6.  A call of [acquireThread] on a pool that is not empty returns the
    pool's top, removes it from the pool and constructs no Worker; on an empty
    pool it returns a newly constructed Worker.  Either way the returned
    Worker is flipped to working and the [onAcquire] callback runs exactly
    once, right at the flip. *)
Theorem acquireThread_pops_or_constructs this name onAcquire s m :
  mMutex s = false →
  managers s !! this = Some m →
  (∀ top, head (mThreadPool m) = Some top → is_Some (workers s !! top)) →
  ∃ thread s' es,
    acquireThread this name onAcquire s = Some (thread, s') ∧
    trace s' = trace s ++ es ∧
    match mThreadPool m with
    | top :: rest =>
        thread = top ∧
        poolOf s' this = Some rest ∧
        length (workers s') = length (workers s) ∧
        es = [EvLock; EvPop top; EvSetIsWorking top true; EvRun onAcquire; EvUnlock]
    | [] =>
        workers s !! thread = None ∧
        poolOf s' this = Some [] ∧
        length (workers s') = S (length (workers s)) ∧
        es = [EvLock; EvNewWorker thread name Odd; EvSetIsWorking thread true;
              EvRun onAcquire; EvUnlock]
    end ∧
    isWorking s' thread = Some true ∧
    runs onAcquire es = 1.
Proof.
  intros Hm Hthis Htop. destruct m as [[|top rest]]; simpl in *.
  - eexists _, _, _. split; [by eapply acquireThread_new|]. simpl.
    split; [done|]. split; [|split].
    + split; [by apply lookup_ge_None_2|].
      split; [by unfold poolOf; simpl; rewrite Hthis|].
      split; [|done]. rewrite length_app. simpl. lia.
    + unfold isWorking; simpl. by rewrite list_lookup_middle.
    + apply runs_acquire_new.
  - destruct (Htop top eq_refl) as [w Hw].
    eexists _, _, _. split; [by eapply acquireThread_reuse|]. simpl.
    split; [done|]. split; [|split].
    + split; [done|]. split; [by eapply poolOf_insert|].
      split; [by rewrite length_insert|done].
    + unfold isWorking; simpl.
      by rewrite list_lookup_insert_eq by (eapply lookup_lt_Some; eassumption).
    + apply runs_acquire_reuse.
Qed.

Lemma acquireThread_pops_or_constructs_witness :
  ∃ thread s' es,
    acquireThread 0 "render-2" 7 one_idle = Some (thread, s') ∧
    trace s' = trace one_idle ++ es ∧
    (thread = 0 ∧
     poolOf s' 0 = Some [] ∧
     length (workers s') = length (workers one_idle) ∧
     es = [EvLock; EvPop 0; EvSetIsWorking 0 true; EvRun 7; EvUnlock]) ∧
    isWorking s' thread = Some true ∧
    runs 7 es = 1.
Proof.
  apply (acquireThread_pops_or_constructs 0 "render-2" 7 one_idle (mkThreadManager [0])).
  - reflexivity.
  - reflexivity.
  - simpl. intros top H. injection H as <-. exists (mkWorkerThread "render-1" Odd false []).
    reflexivity.
Defined.



(** C8.  Releasing the Worker that [acquireThread] returned and acquiring
    again, with no call in between, returns the same Worker, and neither call
    constructs one. *)
Theorem release_then_acquire_returns_same this name1 cb1 cb2 name3 cb3 s A s1 :
  acquireThread this name1 cb1 s = Some (A, s1) →
  ∃ s2 s3,
    releaseThread this A cb2 s1 = Some (tt, s2) ∧
    acquireThread this name3 cb3 s2 = Some (A, s3) ∧
    length (workers s2) = length (workers s1) ∧
    length (workers s3) = length (workers s1) ∧
    poolOf s3 this = poolOf s1 this.
Proof.
  intros Hacq.
  assert (mMutex s1 = false ∧
          (∃ m1, managers s1 !! this = Some m1) ∧
          (∃ wA, workers s1 !! A = Some wA)) as (Hm1 & [m1 Hthis1] & [wA HA]).
  { apply acquireThread_inv in Hacq as (Hm & m & Hthis & [(Hpl & -> & ->)|(rest & w & Hpl & Hw & ->)]);
      simpl.
    - split; [done|]. split; [by eexists|].
      eexists. by apply list_lookup_middle.
    - split; [done|]. split.
      + eexists. by apply list_lookup_insert_eq, (lookup_lt_Some _ _ _ Hthis).
      + eexists. by apply list_lookup_insert_eq, (lookup_lt_Some _ _ _ Hw). }
  eexists _, _. split; [by eapply releaseThread_eq|].
  split.
  - eapply acquireThread_reuse; simpl; [done| |].
    + by apply list_lookup_insert_eq, (lookup_lt_Some _ _ _ Hthis1).
    + by apply list_lookup_insert_eq, (lookup_lt_Some _ _ _ HA).
  - simpl. rewrite !length_insert. split; [done|]. split; [done|].
    unfold poolOf; simpl. rewrite list_insert_insert_eq.
    destruct m1 as [pl1]; simpl.
    by rewrite list_insert_id.
Qed.

Lemma release_then_acquire_returns_same_witness :
  ∃ s2 s3,
    releaseThread 0 0 2
      (mkWorld (Some 0) false [mkThreadManager []]
         [mkWorkerThread "render-1" Odd true []]
         (trace booted ++
          [EvLock; EvNewWorker 0 "render-1" Odd; EvSetIsWorking 0 true; EvRun 1;
           EvUnlock])) = Some (tt, s2) ∧
    acquireThread 0 "render-1" 3 s2 = Some (0, s3) ∧
    length (workers s2) = 1 ∧
    length (workers s3) = 1 ∧
    poolOf s3 0 = Some [].
Proof.
  apply (release_then_acquire_returns_same 0 "render-1" 1 2 "render-1" 3 booted 0).
  reflexivity.
Defined.

(** ** releaseThread *)

(** C7.  A call of [releaseThread] takes its steps in this order: the Worker
    is flipped to not working, then its queue is flushed by [releaseQueue]
    with the [onRelease] callback, then it is pushed onto the pool.  In the
    state in which the push happens the Worker is marked not working and is
    not yet on top of the pool. *)
Theorem releaseThread_flips_drains_pushes this thread onRelease s m w :
  mMutex s = false →
  managers s !! this = Some m →
  workers s !! thread = Some w →
  ∃ s0 s1 s2 s3 s',
    lock_guard s = Some (tt, s0) ∧
    setIsWorking thread false None s0 = Some (tt, s1) ∧
    releaseQueue thread onRelease s1 = Some (tt, s2) ∧
    pool_push this thread s2 = Some (tt, s3) ∧
    unlock_guard s3 = Some (tt, s') ∧
    releaseThread this thread onRelease s = Some (tt, s') ∧
    isWorking s1 thread = Some false ∧
    poolOf s1 this = Some (mThreadPool m) ∧
    isWorking s2 thread = Some false ∧
    (mWorkQueue <$> workers s2 !! thread) = Some [] ∧
    poolOf s2 this = Some (mThreadPool m) ∧
    poolOf s3 this = Some (thread :: mThreadPool m) ∧
    isWorking s3 thread = Some false ∧
    trace s' = trace s ++ [EvLock; EvSetIsWorking thread false;
                           EvReleaseQueue thread; EvRun onRelease;
                           EvPush thread; EvUnlock].
Proof.
  intros Hm Hthis Hw.
  assert (Hlt : thread < length (workers s)) by by eapply lookup_lt_Some.
  assert (Hlt' : this < length (managers s)) by by eapply lookup_lt_Some.
  world s.
  assert (Hflip : <[thread := flagged false w]> wks !! thread = Some (flagged false w))
    by by apply list_lookup_insert_eq.
  eexists _, _, _, _, _.
  split; [reflexivity|].
  split; [unfold setIsWorking; simpl; rewrite Hw; reflexivity|].
  split; [unfold releaseQueue; simpl; unfold flagged in Hflip; rewrite Hflip; reflexivity|].
  split; [unfold pool_push; simpl; rewrite Hthis; reflexivity|].
  split; [reflexivity|].
  split.
  { erewrite releaseThread_eq by done. unfold log, released; simpl.
    by rewrite list_insert_insert_eq, <- !app_assoc. }
  unfold isWorking, poolOf; simpl.
  rewrite list_insert_insert_eq, Hthis.
  rewrite !list_lookup_insert_eq by done. simpl.
  rewrite <- !app_assoc. done.
Qed.

Lemma releaseThread_flips_drains_pushes_witness :
  ∃ s0 s1 s2 s3 s',
    lock_guard one_idle = Some (tt, s0) ∧
    setIsWorking 0 false None s0 = Some (tt, s1) ∧
    releaseQueue 0 5 s1 = Some (tt, s2) ∧
    pool_push 0 0 s2 = Some (tt, s3) ∧
    unlock_guard s3 = Some (tt, s') ∧
    releaseThread 0 0 5 one_idle = Some (tt, s') ∧
    isWorking s1 0 = Some false ∧
    poolOf s1 0 = Some [0] ∧
    isWorking s2 0 = Some false ∧
    (mWorkQueue <$> workers s2 !! 0) = Some [] ∧
    poolOf s2 0 = Some [0] ∧
    poolOf s3 0 = Some [0; 0] ∧
    isWorking s3 0 = Some false ∧
    trace s' = trace one_idle ++ [EvLock; EvSetIsWorking 0 false;
                                  EvReleaseQueue 0; EvRun 5; EvPush 0; EvUnlock].
Proof.
  apply (releaseThread_flips_drains_pushes 0 0 5 one_idle (mkThreadManager [0])
           (mkWorkerThread "render-1" Odd false [])).
  - reflexivity.
  - reflexivity.
  - reflexivity.
Defined.

(** C3, as stated, fails: Worker 0 of [one_idle] has been released and sits
    in the idle pool; releasing it once more returns normally and pushes it a
    second time. *)
Lemma releaseThread_of_pooled_worker_returns :
  poolOf one_idle 0 = Some [0] ∧
  ∃ s', releaseThread 0 0 9 one_idle = Some (tt, s') ∧
        poolOf s' 0 = Some [0; 0].
Proof. split; [reflexivity|]. eexists. split; reflexivity. Qed.

(** The same happens with a Worker that was never acquired from the
    manager. *)
Example releaseThread_of_own_worker_returns :
  ∃ s', releaseThread 0 0 9 own_worker = Some (tt, s') ∧
        poolOf s' 0 = Some [0].
Proof. eexists. split; reflexivity. Qed.

(** C3, amended.  [releaseThread] checks nothing about the Worker it is
    given: for every existing Worker, whatever its flag and whether or not it
    is already in the pool, the call returns normally, having marked the
    Worker not working, flushed its queue with [releaseQueue] and the
    [onRelease] callback, and pushed the Worker on top of the pool, in that
    order and with no other step; a Worker that was in the pool already is in
    it twice afterwards. *)
Theorem releaseThread_checks_nothing this thread onRelease s m w :
  mMutex s = false →
  managers s !! this = Some m →
  workers s !! thread = Some w →
  ∃ s', releaseThread this thread onRelease s = Some (tt, s') ∧
        poolOf s' this = Some (thread :: mThreadPool m) ∧
        isWorking s' thread = Some false ∧
        workers s' !! thread
          = Some (mkWorkerThread (mName w) (mAffinity w) false []) ∧
        trace s' = trace s ++ [EvLock; EvSetIsWorking thread false;
                               EvReleaseQueue thread; EvRun onRelease;
                               EvPush thread; EvUnlock] ∧
        mMutex s' = false ∧
        (thread ∈ mThreadPool m →
         ∃ pl', poolOf s' this = Some pl' ∧ ¬ NoDup pl').
Proof.
  intros Hm Hthis Hw.
  assert (Hlt : thread < length (workers s)) by by eapply lookup_lt_Some.
  eexists. split; [by eapply releaseThread_eq|]. simpl.
  assert (Hpool : poolOf
            (mkWorld (mInstance s) false
               (<[this := mkThreadManager (thread :: mThreadPool m)]> (managers s))
               (<[thread := released w]> (workers s))
               (trace s ++ [EvLock; EvSetIsWorking thread false;
                            EvReleaseQueue thread; EvRun onRelease;
                            EvPush thread; EvUnlock])) this
          = Some (thread :: mThreadPool m)) by by eapply poolOf_insert.
  split; [done|]. split.
  { unfold isWorking; simpl. by rewrite list_lookup_insert_eq. }
  split; [by rewrite list_lookup_insert_eq|].
  split; [done|]. split; [done|].
  intros Hin. eexists. split; [done|].
  intros Hnd. by apply NoDup_cons in Hnd as [Hnot _].
Qed.

Lemma releaseThread_checks_nothing_witness :
  ∃ s', releaseThread 0 0 9 one_idle = Some (tt, s') ∧
        poolOf s' 0 = Some [0; 0] ∧
        isWorking s' 0 = Some false ∧
        workers s' !! 0 = Some (mkWorkerThread "render-1" Odd false []) ∧
        trace s' = trace one_idle ++ [EvLock; EvSetIsWorking 0 false;
                                      EvReleaseQueue 0; EvRun 9;
                                      EvPush 0; EvUnlock] ∧
        mMutex s' = false ∧
        (0 ∈ [0] → ∃ pl', poolOf s' 0 = Some pl' ∧ ¬ NoDup pl').
Proof.
  apply (releaseThread_checks_nothing 0 0 9 one_idle (mkThreadManager [0])
           (mkWorkerThread "render-1" Odd false [])).
  - reflexivity.
  - reflexivity.
  - reflexivity.
Defined.

(** ** Sequences of calls *)

Lemma unlend_Permutation thread lent :
  thread ∈ lent → lent ≡ₚ thread :: unlend thread lent.
Proof.
  induction lent as [|p rest IH]; intros Hin; [by apply elem_of_nil in Hin|].
  simpl. case_decide as Hp; [by subst|].
  apply elem_of_cons in Hin as [->|Hin]; [done|].
  rewrite (IH Hin) at 1. apply Permutation_swap.
Qed.

(** An acquire in a state that satisfies the invariant returns a Worker that
    is not lent out, and keeps the invariant. *)
Lemma acquireThread_keeps_inv this name cb s lent :
  pool_ledger_inv this (s, lent) →
  ∃ t s', acquireThread this name cb s = Some (t, s') ∧
          (t ∉ lent) ∧
          pool_ledger_inv this (s', t :: lent).
Proof.
  intros (Hm & pl & Hpool & Hnd & Hall); simpl in *.
  unfold poolOf in Hpool.
  destruct (managers s !! this) as [[pl']|] eqn:Hthis; simplify_eq/=.
  destruct pl as [|top rest].
  - simpl in *.
    assert (Hfresh : length (workers s) ∉ lent).
    { intros Hin. apply Hall in Hin. lia. }
    eexists _, _. split; [by eapply acquireThread_new|].
    split; [done|]. split; [done|]. simpl.
    exists []. split; [by unfold poolOf; simpl; rewrite Hthis|]. simpl.
    split; [by apply NoDup_cons|].
    intros p. rewrite length_app, elem_of_cons, Hall. simpl. lia.
  - assert (Htop : is_Some (workers s !! top)).
    { apply lookup_lt_is_Some, Hall. by left. }
    destruct Htop as [w Hw].
    eexists _, _. split; [by eapply acquireThread_reuse|].
    split.
    { simpl in Hnd. apply NoDup_cons in Hnd as [Hnot _].
      intros Hin. apply Hnot, elem_of_app. by right. }
    split; [done|]. simpl.
    exists rest. split; [by eapply poolOf_insert|].
    assert (Hperm : rest ++ top :: lent ≡ₚ (top :: rest) ++ lent).
    { simpl. by rewrite Permutation_middle. }
    split; [by rewrite Hperm|].
    intros p. rewrite length_insert, Hperm. apply Hall.
Qed.

(** A release of a lent Worker keeps the invariant. *)
Lemma releaseThread_keeps_inv this thread cb s lent :
  pool_ledger_inv this (s, lent) →
  thread ∈ lent →
  ∃ s', releaseThread this thread cb s = Some (tt, s') ∧
        pool_ledger_inv this (s', unlend thread lent).
Proof.
  intros (Hm & pl & Hpool & Hnd & Hall) Hin; simpl in *.
  unfold poolOf in Hpool.
  destruct (managers s !! this) as [[pl']|] eqn:Hthis; simplify_eq/=.
  assert (Hthread : is_Some (workers s !! thread)).
  { apply lookup_lt_is_Some, Hall, elem_of_app. by right. }
  destruct Hthread as [w Hw].
  eexists. split; [by eapply releaseThread_eq|].
  split; [done|]. simpl.
  exists (thread :: pl). split; [by eapply poolOf_insert|].
  assert (Hperm : (thread :: pl) ++ unlend thread lent ≡ₚ pl ++ lent).
  { simpl. rewrite (unlend_Permutation thread lent Hin) at 2.
    by rewrite Permutation_middle. }
  split; [by rewrite Hperm|].
  intros p. rewrite length_insert, Hperm. apply Hall.
Qed.

Lemma call_keeps_inv this c st :
  pool_ledger_inv this st →
  permitted c st.2 = true →
  ∃ st', call this c st = Some st' ∧ pool_ledger_inv this st'.
Proof.
  destruct st as [s lent]. intros Hinv Hperm.
  destruct c as [name cb|thread cb]; simpl in *.
  - destruct (acquireThread_keeps_inv this name cb s lent Hinv)
      as (t & s' & -> & _ & Hinv').
    by eexists.
  - apply bool_decide_eq_true in Hperm.
    destruct (releaseThread_keeps_inv this thread cb s lent Hinv Hperm)
      as (s' & -> & Hinv').
    by eexists.
Qed.

Lemma disciplined_run_keeps_inv this calls st :
  pool_ledger_inv this st →
  disciplined this calls st = true →
  ∃ st', run this calls st = Some st' ∧ pool_ledger_inv this st'.
Proof.
  revert st. induction calls as [|c rest IH]; intros st Hinv Hd; simpl in *.
  - by eexists.
  - apply andb_prop in Hd as [Hperm Hd].
    destruct (call_keeps_inv this c st Hinv Hperm) as (st1 & Hcall & Hinv1).
    rewrite Hcall in *. by apply IH.
Qed.

Lemma unlend_elem_of thread lent p :
  NoDup lent → thread ∈ lent →
  p ∈ unlend thread lent ↔ p ≠ thread ∧ p ∈ lent.
Proof.
  intros Hnd Hin. pose proof (unlend_Permutation thread lent Hin) as Hperm.
  rewrite Hperm in Hnd. apply NoDup_cons in Hnd as [Hnot _].
  rewrite Hperm at 2. rewrite elem_of_cons. split.
  - intros Hp. split; [by intros ->|by right].
  - by intros [Hne [->|Hp]].
Qed.

(** Under the lending discipline the flag of a Worker tells whether it is
    lent out. *)
Lemma call_keeps_flags this c st st' :
  pool_ledger_inv this st →
  flags_follow_ledger st →
  permitted c st.2 = true →
  call this c st = Some st' →
  flags_follow_ledger st'.
Proof.
  destruct st as [s lent]. intros (Hm & pl & Hpool & Hnd & Hall) Hflags Hperm.
  unfold flags_follow_ledger in *; simpl in *.
  destruct c as [name cb|thread cb]; simpl in *.
  - destruct (acquireThread this name cb s) as [[t s']|] eqn:Hacq; [|done].
    intros [= <-]; simpl.
    apply acquireThread_inv in Hacq
      as (_ & m & _ & [(_ & -> & ->)|(rest & w0 & _ & Hw0 & ->)]); simpl.
    + intros p w Hp. rewrite elem_of_cons.
      apply lookup_app_Some in Hp as [Hp|[Hge Hp]].
      * pose proof (lookup_lt_Some _ _ _ Hp). rewrite (Hflags p w Hp).
        split; [by right|]. intros [->|?]; [lia|done].
      * apply list_lookup_singleton_Some in Hp as [Hz <-]. simpl.
        split; [|done]. intros _. left. lia.
    + intros p w Hp. rewrite elem_of_cons.
      destruct (decide (p = t)) as [->|Hne].
      * rewrite list_lookup_insert_eq in Hp by by eapply lookup_lt_Some.
        injection Hp as <-. simpl. split; [by left|done].
      * rewrite list_lookup_insert_ne in Hp by done.
        rewrite (Hflags p w Hp). split; [by right|]. by intros [?|?].
  - apply bool_decide_eq_true in Hperm.
    destruct (releaseThread this thread cb s) as [[u s']|] eqn:Hrel; [|done].
    intros [= <-]; simpl.
    apply releaseThread_inv in Hrel as (_ & m & w0 & _ & Hw0 & ->); simpl.
    apply NoDup_app in Hnd as (_ & _ & Hndl).
    intros p w Hp. rewrite (unlend_elem_of thread lent p Hndl Hperm).
    destruct (decide (p = thread)) as [->|Hne].
    + rewrite list_lookup_insert_eq in Hp by by eapply lookup_lt_Some.
      injection Hp as <-. simpl. split; [done|]. by intros [? _].
    + rewrite list_lookup_insert_ne in Hp by done.
      rewrite (Hflags p w Hp). split; [done|]. by intros [_ ?].
Qed.

Lemma disciplined_run_keeps_flags this calls st st' :
  pool_ledger_inv this st →
  flags_follow_ledger st →
  disciplined this calls st = true →
  run this calls st = Some st' →
  flags_follow_ledger st'.
Proof.
  revert st. induction calls as [|c rest IH]; intros st Hinv Hflags Hd Hrun;
    simpl in *.
  - by injection Hrun as <-.
  - apply andb_prop in Hd as [Hperm Hd].
    destruct (call_keeps_inv this c st Hinv Hperm) as (st1 & Hcall & Hinv1).
    pose proof (call_keeps_flags this c st st1 Hinv Hflags Hperm Hcall) as Hflags1.
    rewrite Hcall in *. by apply (IH st1).
Qed.

(** C4, as stated, fails: a caller that releases Worker 0 twice leaves it in
    the pool twice; the next [acquireThread] lends it out while a copy stays
    in the pool, and the one after that hands it out again although it is
    still lent out. *)
Lemma double_release_puts_worker_in_pool_and_on_loan :
  ∃ s4 s5,
    run 0 [CallAcquire "render-1" 1; CallRelease 0 2; CallRelease 0 3;
           CallAcquire "render-2" 4] (booted, []) = Some (s4, [0]) ∧
    poolOf s4 0 = Some [0] ∧
    acquireThread 0 "render-3" 5 s4 = Some (0, s5).
Proof.
  eexists _, _. split; [vm_compute; reflexivity|].
  split; vm_compute; reflexivity.
Qed.

(** C4, amended.  As long as every [releaseThread] is given a Worker that is
    lent out at the time of the call, every call returns, and in the state
    reached each Worker is in the idle pool or lent out and never both, once
    in either; an [acquireThread] in that state returns a Worker that is not
    lent out. *)
Theorem disciplined_calls_keep_pool_and_loans_apart this calls st :
  pool_ledger_inv this st →
  disciplined this calls st = true →
  ∃ s' lent' pl,
    run this calls st = Some (s', lent') ∧
    poolOf s' this = Some pl ∧
    (∀ p, p < length (workers s') →
          (p ∈ pl ∧ p ∉ lent') ∨ ((p ∉ pl) ∧ p ∈ lent')) ∧
    NoDup pl ∧ NoDup lent' ∧
    ∀ name cb, ∃ t s'', acquireThread this name cb s' = Some (t, s'') ∧
                        t ∉ lent'.
Proof.
  intros Hinv Hd.
  destruct (disciplined_run_keeps_inv this calls st Hinv Hd)
    as ([s' lent'] & Hrun & Hinv').
  pose proof Hinv' as (Hm & pl & Hpool & Hnd & Hall); simpl in *.
  exists s', lent', pl. split; [done|]. split; [done|].
  apply NoDup_app in Hnd as (Hndp & Hdisj & Hndl).
  split; [|split; [done|split; [done|]]].
  - intros p Hp. apply Hall, elem_of_app in Hp as [Hp|Hp].
    + left. split; [done|]. by apply Hdisj.
    + right. split; [|done]. intros Hp'. by apply (Hdisj p).
  - intros name cb.
    destruct (acquireThread_keeps_inv this name cb s' lent' Hinv')
      as (t & s'' & Hacq & Hnot & _).
    by exists t, s''.
Qed.

Lemma disciplined_calls_keep_pool_and_loans_apart_witness :
  ∃ s' lent' pl,
    run 0 [CallAcquire "render-1" 1; CallAcquire "render-2" 2; CallRelease 0 3]
      (booted, []) = Some (s', lent') ∧
    poolOf s' 0 = Some pl ∧
    (∀ p, p < length (workers s') →
          (p ∈ pl ∧ p ∉ lent') ∨ ((p ∉ pl) ∧ p ∈ lent')) ∧
    NoDup pl ∧ NoDup lent' ∧
    ∀ name cb, ∃ t s'', acquireThread 0 name cb s' = Some (t, s'') ∧
                        t ∉ lent'.
Proof.
  apply (disciplined_calls_keep_pool_and_loans_apart 0
           [CallAcquire "render-1" 1; CallAcquire "render-2" 2; CallRelease 0 3]
           (booted, [])).
  - split; [reflexivity|]. exists []. split; [reflexivity|]. simpl.
    split; [apply NoDup_nil_2|].
    intros p. split; [intros H; inversion H|intros H; inversion H].
  - vm_compute. reflexivity.
Defined.

(** ** Affinity tags *)

Lemma tags_insert_flag s t w b i mx ms tr :
  workers s !! t = Some w →
  tags (mkWorld i mx ms (<[t := flagged b w]> (workers s)) tr) = tags s.
Proof.
  intros Hw. unfold tags; simpl. rewrite list_fmap_insert. simpl.
  apply list_insert_id. by rewrite list_lookup_fmap, Hw.
Qed.

Lemma tags_insert_released s t w i mx ms tr :
  workers s !! t = Some w →
  tags (mkWorld i mx ms (<[t := released w]> (workers s)) tr) = tags s.
Proof.
  intros Hw. unfold tags; simpl. rewrite list_fmap_insert. simpl.
  apply list_insert_id. by rewrite list_lookup_fmap, Hw.
Qed.

(** One call adds at most one tag, and that tag is [Odd]. *)
Lemma call_tags this c st st' :
  call this c st = Some st' →
  ∃ k, tags st'.1 = tags st.1 ++ replicate k Odd.
Proof.
  destruct st as [s lent]. destruct c as [name cb|thread cb]; simpl.
  - destruct (acquireThread this name cb s) as [[t s']|] eqn:Hacq; [|done].
    intros [= <-]. simpl.
    apply acquireThread_inv in Hacq
      as (_ & m & _ & [(_ & _ & ->)|(rest & w & _ & Hw & ->)]).
    + exists 1. unfold tags; simpl. by rewrite fmap_app.
    + exists 0. rewrite (tags_insert_flag s t w true _ _ _ _ Hw).
      by rewrite app_nil_r.
  - destruct (releaseThread this thread cb s) as [[u s']|] eqn:Hrel; [|done].
    intros [= <-]. simpl.
    apply releaseThread_inv in Hrel as (_ & m & w & _ & Hw & ->).
    exists 0. rewrite (tags_insert_released s thread w _ _ _ _ Hw).
    by rewrite app_nil_r.
Qed.

(** A run of acquires on an empty pool always returns, and constructs one
    [Odd] Worker per call. *)
Lemma acquires_on_empty_pool this reqs s lent :
  mMutex s = false →
  poolOf s this = Some [] →
  ∃ st', run this (acquires reqs) (s, lent) = Some st' ∧
         tags st'.1 = tags s ++ replicate (length reqs) Odd ∧
         poolOf st'.1 this = Some [].
Proof.
  revert s lent. induction reqs as [|[name cb] reqs IH]; intros s lent Hm Hpool.
  - eexists. split; [done|]. simpl. by rewrite app_nil_r.
  - unfold poolOf in Hpool.
    destruct (managers s !! this) as [[pl]|] eqn:Hthis; simplify_eq/=.
    erewrite acquireThread_new by done. simpl.
    edestruct (IH (mkWorld (mInstance s) false (managers s)
                     (workers s ++ [mkWorkerThread name Odd true []])
                     (trace s ++ [EvLock; EvNewWorker (length (workers s)) name Odd;
                                  EvSetIsWorking (length (workers s)) true;
                                  EvRun cb; EvUnlock]))
                  (length (workers s) :: lent))
      as (st' & Hrun & Htags & Hpool').
    { done. }
    { by unfold poolOf; simpl; rewrite Hthis. }
    exists st'. split; [done|]. split; [|done].
    rewrite Htags. unfold tags; simpl. by rewrite fmap_app, <- app_assoc.
Qed.

(** C1, as stated, fails: the first two Workers that the manager of [booted]
    constructs both carry the tag [Odd]; their tags do not alternate. *)
Lemma two_new_workers_same_affinity :
  run 0 [CallAcquire "render-1" 1; CallAcquire "render-2" 2] (booted, [])
    = Some (two_lent, [1; 0]) ∧
  tags two_lent = [Odd; Odd] ∧
  alternating (tags two_lent) = false.
Proof. split; [vm_compute; reflexivity|]. split; reflexivity. Qed.

(** C1, amended.  Over every sequence of calls on the manager, each Worker
    that is constructed is given the same affinity tag, [Affinity::Odd], and
    the tags of the Workers that existed before stay as they were: there is
    no rotation. *)
Theorem every_new_worker_is_odd this calls st st' :
  run this calls st = Some st' →
  ∃ k, tags st'.1 = tags st.1 ++ replicate k Odd ∧
       length (workers st'.1) = length (workers st.1) + k.
Proof.
  intros Hrun.
  assert (∃ k, tags st'.1 = tags st.1 ++ replicate k Odd) as [k Hk].
  { revert st Hrun. induction calls as [|c rest IH]; intros st Hrun; simpl in *.
    - injection Hrun as <-. exists 0. by rewrite app_nil_r.
    - destruct (call this c st) as [st1|] eqn:Hcall; [|done].
      destruct (call_tags this c st st1 Hcall) as [k1 Hk1].
      destruct (IH st1 Hrun) as [k2 Hk2].
      exists (k1 + k2). by rewrite Hk2, Hk1, <- app_assoc, replicate_add. }
  exists k. split; [done|].
  apply (f_equal length) in Hk.
  unfold tags in Hk. by rewrite length_app, !length_fmap, length_replicate in Hk.
Qed.

Lemma every_new_worker_is_odd_witness :
  ∃ k, tags two_lent = tags booted ++ replicate k Odd ∧
       length (workers two_lent) = length (workers booted) + k.
Proof.
  apply (every_new_worker_is_odd 0
           [CallAcquire "render-1" 1; CallAcquire "render-2" 2] (booted, [])
           (two_lent, [1; 0])).
  vm_compute. reflexivity.
Defined.

(** ** getInstance *)

Lemma constructions_app es1 es2 :
  constructions (es1 ++ es2) = constructions es1 + constructions es2.
Proof. unfold constructions. by rewrite filter_app, length_app. Qed.

Lemma occurrences_app e es1 es2 :
  occurrences e (es1 ++ es2) = occurrences e es1 + occurrences e es2.
Proof. unfold occurrences. by rewrite filter_app, length_app. Qed.

(** Once the instance exists, every call returns it, constructs nothing and
    touches neither managers nor Workers; each call locks and unlocks once. *)
Lemma getInstances_again n s p :
  mMutex s = false →
  mInstance s = Some p →
  ∃ s' es, getInstances n s = Some (replicate n (Some p), s') ∧
           mMutex s' = false ∧ mInstance s' = Some p ∧
           managers s' = managers s ∧
           workers s' = workers s ∧
           trace s' = trace s ++ es ∧ constructions es = 0 ∧
           occurrences EvLock es = n ∧ occurrences EvUnlock es = n.
Proof.
  revert s. induction n as [|n IH]; intros s Hm Hi; simpl.
  - exists s, []. by rewrite app_nil_r.
  - unfold bind. rewrite (getInstance_again s p Hm Hi).
    edestruct (IH (mkWorld (Some p) false (managers s) (workers s)
                     (trace s ++ [EvLock; EvTestInstance false; EvUnlock])))
      as (s' & es & -> & Hm' & Hi' & Hmg & Hwk & Htr & Hc & Hl & Hu); [done..|].
    simpl in *. exists s', ([EvLock; EvTestInstance false; EvUnlock] ++ es).
    split; [done|]. split; [done|]. split; [done|]. split; [done|].
    split; [done|]. split; [by rewrite Htr, <- app_assoc|].
    rewrite constructions_app, !occurrences_app, Hc, Hl, Hu. done.
Qed.

(** C5.  Over every sequence of [getInstance] calls, from any state with the
    mutex free, every call returns the same instance, which is not null, and
    the sequence constructs a [ThreadManager] at most once: not at all when
    the instance existed before, in which case that instance is the one
    returned, and exactly once, by appending one manager with an empty pool,
    when it did not.  The instance returned is the address of a manager.
    Every call takes and gives back the mutex once, and no call touches a
    Worker. *)
Theorem getInstance_is_singleton n s :
  mMutex s = false →
  ∃ p s' es,
    getInstances n s = Some (replicate n (Some p), s') ∧
    trace s' = trace s ++ es ∧
    constructions es ≤ 1 ∧
    (is_Some (mInstance s) → constructions es = 0) ∧
    length (managers s') ≤ S (length (managers s)) ∧
    (0 < n → mInstance s' = Some p) ∧
    (∀ q, mInstance s = Some q → p = q ∧ managers s' = managers s) ∧
    (mInstance s = None → 0 < n →
       constructions es = 1 ∧ p = length (managers s) ∧
       managers s' = managers s ++ [mkThreadManager []]) ∧
    (instance_valid s → 0 < n → is_Some (managers s' !! p)) ∧
    workers s' = workers s ∧
    mMutex s' = false ∧
    occurrences EvLock es = n ∧
    occurrences EvUnlock es = n.
Proof.
  intros Hm. destruct (mInstance s) as [p|] eqn:Hi.
  - destruct (getInstances_again n s p Hm Hi)
      as (s' & es & Hrun & Hm' & Hi' & Hmg & Hwk & Htr & Hc & Hl & Hu).
    exists p, s', es. rewrite Hmg, Hc.
    split; [done|]. split; [done|]. split; [lia|]. split; [done|].
    split; [lia|]. split; [done|]. split; [by intros q [= <-]|].
    split; [done|]. split; [|done].
    intros Hv _. by apply Hv.
  - destruct n as [|n].
    + exists 0, s, []. simpl. rewrite app_nil_r.
      repeat split; try done; try lia.
      unfold constructions; simpl. lia.
    + simpl. unfold bind. rewrite (getInstance_first s Hm Hi).
      edestruct (getInstances_again n
                   (mkWorld (Some (length (managers s))) false
                      (managers s ++ [mkThreadManager []]) (workers s)
                      (trace s ++ [EvLock; EvTestInstance true;
                                   EvNewManager (length (managers s)); EvUnlock]))
                   (length (managers s)))
        as (s' & es & -> & Hm' & Hi' & Hmg & Hwk & Htr & Hc & Hl & Hu); [done..|].
      simpl in *.
      exists (length (managers s)), s',
        ([EvLock; EvTestInstance true; EvNewManager (length (managers s));
          EvUnlock] ++ es).
      split; [done|]. split; [by rewrite Htr, <- app_assoc|].
      rewrite constructions_app, !occurrences_app, Hc, Hl, Hu, Hmg, length_app.
      simpl.
      split; [lia|]. split; [by intros [? ?]|]. split; [lia|].
      split; [done|]. split; [done|]. split; [done|].
      split; [|done].
      intros _ _. exists (mkThreadManager []). by apply list_lookup_middle.
Qed.

Lemma getInstance_is_singleton_witness :
  ∃ p s' es,
    getInstances 3 startup = Some ([Some p; Some p; Some p], s') ∧
    trace s' = trace startup ++ es ∧
    constructions es ≤ 1 ∧
    (is_Some (mInstance startup) → constructions es = 0) ∧
    length (managers s') ≤ 1 ∧
    (0 < 3 → mInstance s' = Some p) ∧
    (∀ q, mInstance startup = Some q → p = q ∧ managers s' = managers startup) ∧
    (mInstance startup = None → 0 < 3 →
       constructions es = 1 ∧ p = 0 ∧
       managers s' = [mkThreadManager []]) ∧
    (instance_valid startup → 0 < 3 → is_Some (managers s' !! p)) ∧
    workers s' = workers startup ∧
    mMutex s' = false ∧
    occurrences EvLock es = 3 ∧
    occurrences EvUnlock es = 3.
Proof.
  apply (getInstance_is_singleton 3 startup). reflexivity.
Defined.

(** C2, as stated, fails: the call of [getInstance] after the first, in
    [booted], where the instance exists, takes the lock all the same, and
    tests the instance pointer only after it. *)
Lemma getInstance_second_call_locks :
  mInstance booted = Some 0 ∧
  ∃ s2 es,
    getInstance booted = Some (Some 0, s2) ∧
    trace s2 = trace booted ++ es ∧
    es = [EvLock; EvTestInstance false; EvUnlock] ∧
    EvLock ∈ es.
Proof.
  split; [reflexivity|]. eexists _, _.
  split; [vm_compute; reflexivity|]. split; [reflexivity|].
  split; [reflexivity|]. by left.
Qed.

(** C2, amended.  [getInstance] takes the lock first, on every call; it tests
    the instance pointer once, while it holds the lock, constructs the manager
    only if the pointer is null, and gives the lock back before it returns
    the instance, which is not null. *)
Theorem getInstance_locks_then_checks s :
  mMutex s = false →
  ∃ p s',
    getInstance s = Some (Some p, s') ∧
    trace s' = trace s ++
      [EvLock; EvTestInstance (bool_decide (mInstance s = None))] ++
      (if bool_decide (mInstance s = None) then [EvNewManager p] else []) ++
      [EvUnlock] ∧
    mMutex s' = false ∧
    mInstance s' = Some p.
Proof.
  intros Hm. destruct (mInstance s) as [p|] eqn:Hi.
  - eexists _, _. by split; [by apply getInstance_again|].
  - eexists _, _. by split; [by apply getInstance_first|].
Qed.

Lemma getInstance_locks_then_checks_witness :
  ∃ p s',
    getInstance booted = Some (Some p, s') ∧
    trace s' = trace booted ++ [EvLock; EvTestInstance false] ++ [] ++ [EvUnlock] ∧
    mMutex s' = false ∧
    mInstance s' = Some p.
Proof.
  apply (getInstance_locks_then_checks booted). reflexivity.
Defined.

(** ** cppInputCount *)

Lemma to_signed_congruent bits x :
  (0 < bits)%Z → ∃ q : Z, to_signed bits x = (x - q * 2 ^ bits)%Z.
Proof.
  intros Hb. unfold to_signed.
  exists ((x + 2 ^ (bits - 1)) / 2 ^ bits)%Z.
  pose proof (Z.div_mod (x + 2 ^ (bits - 1)) (2 ^ bits)) as H.
  assert (2 ^ bits ≠ 0)%Z by (apply Z.pow_nonzero; lia).
  specialize (H ltac:(done)). lia.
Qed.

Lemma to_signed_range bits x :
  (0 < bits)%Z → (- 2 ^ (bits - 1) ≤ to_signed bits x < 2 ^ (bits - 1))%Z.
Proof.
  intros Hb. unfold to_signed.
  assert (2 ^ bits = 2 * 2 ^ (bits - 1))%Z as Hpow.
  { rewrite <- Z.pow_succ_r by lia. f_equal. lia. }
  assert (0 < 2 ^ (bits - 1))%Z by (apply Z.pow_pos_nonneg; lia).
  pose proof (Z.mod_pos_bound (x + 2 ^ (bits - 1)) (2 ^ bits)) as H'.
  lia.
Qed.

Lemma to_signed_small bits x :
  (0 < bits)%Z → (- 2 ^ (bits - 1) ≤ x < 2 ^ (bits - 1))%Z →
  to_signed bits x = x.
Proof.
  intros Hb Hx. unfold to_signed.
  assert (2 ^ bits = 2 * 2 ^ (bits - 1))%Z as Hpow.
  { rewrite <- Z.pow_succ_r by lia. f_equal. lia. }
  rewrite Z.mod_small by lia. lia.
Qed.

(** C10.  The binding returns the input count converted to [jlong] and then
    to the declared [jint]: a 32-bit value congruent to the count modulo
    2^32, equal to the count exactly when the count fits a [jint]. *)
Theorem cppInputCount_wraps_to_32_bits smi :
  (cppInputCount smi mod 2 ^ 32 = Z.of_N (inputCount smi) mod 2 ^ 32)%Z ∧
  (- 2 ^ 31 ≤ cppInputCount smi < 2 ^ 31)%Z ∧
  (cppInputCount smi = Z.of_N (inputCount smi) ↔
   (Z.of_N (inputCount smi) < 2 ^ 31)%Z).
Proof.
  unfold cppInputCount, to_jint, to_jlong.
  set (n := Z.of_N (inputCount smi)).
  assert (0 ≤ n)%Z as Hn by apply N2Z.is_nonneg.
  split; [|split].
  - destruct (to_signed_congruent 64 n) as [q Hq]; [lia|].
    destruct (to_signed_congruent 32 (to_signed 64 n)) as [q' Hq']; [lia|].
    rewrite Hq', Hq.
    replace (n - q * 2 ^ 64 - q' * 2 ^ 32)%Z
      with (n + (- (q * 2 ^ 32) - q') * 2 ^ 32)%Z by lia.
    apply Z.mod_add. lia.
  - apply (to_signed_range 32). lia.
  - split.
    + intros Heq. pose proof (to_signed_range 32 (to_signed 64 n)) as H.
      rewrite Heq in H. lia.
    + intros Hlt. rewrite (to_signed_small 64 n) by lia.
      apply to_signed_small; lia.
Qed.

Example cppInputCount_small :
  cppInputCount (mkStateMachineInstance 3) = 3%Z.
Proof. reflexivity. Qed.

Example cppInputCount_wrapped :
  cppInputCount (mkStateMachineInstance (2 ^ 32 + 5)) = 5%Z.
Proof. reflexivity. Qed.

Example cppInputCount_negative :
  cppInputCount (mkStateMachineInstance (2 ^ 31)) = (- 2 ^ 31)%Z.
Proof. reflexivity. Qed.

(** ** Factorial *)

Lemma Factorial_step number :
  Factorial number =
  if decide (number ≤ 1)%Z then Some 1%Z
  else match Factorial (number - 1) with
       | Some r => int_mul r number
       | None => None
       end.
Proof. rewrite Factorial_equation_1. by destruct (decide (number ≤ 1)%Z). Qed.

(** As long as n! fits an [int], the recursion computes it. *)
Lemma Factorial_of_nat n :
  (Z.of_nat (fact n) ≤ INT_MAX)%Z →
  Factorial (Z.of_nat n) = Some (Z.of_nat (fact n)).
Proof.
  induction n as [|n IH]; intros Hfit; [done|].
  rewrite Factorial_step.
  destruct n as [|n]; [done|].
  rewrite decide_False by lia.
  replace (Z.of_nat (S (S n)) - 1)%Z with (Z.of_nat (S n)) by lia.
  assert (fact (S (S n)) = S (S n) * fact (S n))%nat as Hfact by done.
  pose proof (lt_O_fact (S n)) as Hpos.
  rewrite IH by nia.
  unfold int_mul. rewrite bool_decide_eq_true_2.
  - f_equal. rewrite Hfact. lia.
  - unfold INT_MIN, INT_MAX in *. split; nia.
Qed.

(** 12! in [Z], by eleven multiplications. *)
Lemma fact_12 : Z.of_nat (fact 12) = 479001600%Z.
Proof.
  change (fact 12)
    with (12 * (11 * (10 * (9 * (8 * (7 * (6 * (5 * (4 * (3 * (2 * 1)))))))))))%nat.
  rewrite !Nat2Z.inj_mul. reflexivity.
Qed.

(** The tests of first_test.cpp: every [REQUIRE] holds. *)
Example Factorial_test_cases :
  Factorial 0 = Some 1%Z ∧ Factorial 1 = Some 1%Z ∧ Factorial 2 = Some 2%Z ∧
  Factorial 3 = Some 6%Z ∧ Factorial 10 = Some 3628800%Z.
Proof. repeat split; vm_compute; reflexivity. Qed.

(** X1.  For every argument up to 12, zero and the negative numbers
    included, [Factorial] returns the factorial of the argument (1 for every
    argument below 2) without overflow. *)
Theorem Factorial_up_to_12 number :
  (number ≤ 12)%Z →
  Factorial number = Some (Z.of_nat (fact (Z.to_nat number))).
Proof.
  intros Hle. destruct (decide (number ≤ 0)%Z) as [Hneg|Hpos].
  - rewrite Factorial_step, decide_True by lia.
    by replace (Z.to_nat number) with 0%nat by lia.
  - rewrite <- (Z2Nat.id number) at 1 by lia.
    apply Factorial_of_nat.
    assert (fact (Z.to_nat number) ≤ fact 12)%nat as Hmono
      by (apply fact_le; lia).
    pose proof fact_12 as H12.
    unfold INT_MAX. lia.
Qed.

Lemma Factorial_up_to_12_witness :
  Factorial 10 = Some (Z.of_nat (fact (Z.to_nat 10))).
Proof. apply (Factorial_up_to_12 10). lia. Defined.

(** X2.  For every argument from 13 on, the multiplication overflows
    [int]: the call has no defined result. *)
Theorem Factorial_overflows_from_13 number :
  (13 ≤ number)%Z → Factorial number = None.
Proof.
  intros Hge.
  assert (∀ k : nat, Factorial (13 + Z.of_nat k) = None) as Hall.
  { induction k as [|k IH]; [vm_compute; reflexivity|].
    rewrite Factorial_step, decide_False by lia.
    replace (13 + Z.of_nat (S k) - 1)%Z with (13 + Z.of_nat k)%Z by lia.
    by rewrite IH. }
  replace number with (13 + Z.of_nat (Z.to_nat (number - 13)))%Z by lia.
  apply Hall.
Qed.

Lemma Factorial_overflows_from_13_witness : Factorial 20 = None.
Proof. apply (Factorial_overflows_from_13 20). lia. Defined.

(** ** Stack order of the pool *)

Lemma run_app this calls1 calls2 st :
  run this (calls1 ++ calls2) st =
  match run this calls1 st with
  | Some st1 => run this calls2 st1
  | None => None
  end.
Proof.
  revert st. induction calls1 as [|c rest IH]; intros st; simpl; [done|].
  by destruct (call this c st).
Qed.

Lemma poolOf_Some s this pl :
  poolOf s this = Some pl → managers s !! this = Some (mkThreadManager pl).
Proof.
  unfold poolOf. destruct (managers s !! this) as [[pl']|]; simpl; [|done].
  by intros [= ->].
Qed.

(** A run of releases pushes the Workers one after the other. *)
Lemma run_releases this rels s pl :
  mMutex s = false →
  poolOf s this = Some pl →
  (∀ r, r ∈ rels → r.1 < length (workers s)) →
  ∃ s', run this (releases rels) (s, []) = Some (s', []) ∧
        mMutex s' = false ∧
        poolOf s' this = Some (reverse rels.*1 ++ pl) ∧
        length (workers s') = length (workers s).
Proof.
  revert s pl. induction rels as [|[t cb] rest IH]; intros s pl Hm Hpool Hvalid.
  - by exists s.
  - apply poolOf_Some in Hpool.
    destruct (lookup_lt_is_Some_2 (workers s) t) as [w Hw].
    { apply (Hvalid (t, cb)). by left. }
    simpl. erewrite releaseThread_eq by done. simpl.
    edestruct (IH (mkWorld (mInstance s) false
                     (<[this := mkThreadManager (t :: pl)]> (managers s))
                     (<[t := released w]> (workers s))
                     (trace s ++ [EvLock; EvSetIsWorking t false; EvReleaseQueue t;
                                  EvRun cb; EvPush t; EvUnlock]))
                  (t :: pl)) as (s' & Hrun & Hm' & Hpool' & Hlen).
    { done. }
    { by eapply poolOf_insert. }
    { simpl. intros r Hr. rewrite length_insert. apply Hvalid. by right. }
    exists s'. split; [done|]. split; [done|].
    simpl in Hlen. rewrite length_insert in Hlen.
    split; [|done]. by rewrite reverse_cons, <- app_assoc.
Qed.

(** A run of acquires on a pool that holds enough Workers pops them one
    after the other and constructs none. *)
Lemma run_acquires_pop this reqs q s pl lent :
  mMutex s = false →
  poolOf s this = Some (q ++ pl) →
  length reqs = length q →
  (∀ t, t ∈ q → t < length (workers s)) →
  ∃ s', run this (acquires reqs) (s, lent) = Some (s', reverse q ++ lent) ∧
        mMutex s' = false ∧
        poolOf s' this = Some pl ∧
        length (workers s') = length (workers s).
Proof.
  revert reqs s lent.
  induction q as [|t q IH]; intros reqs s lent Hm Hpool Hlen Hvalid.
  - destruct reqs; [|done]. by exists s.
  - destruct reqs as [|[name cb] reqs]; [done|].
    apply poolOf_Some in Hpool.
    destruct (lookup_lt_is_Some_2 (workers s) t) as [w Hw].
    { apply Hvalid. by left. }
    simpl. erewrite acquireThread_reuse by done. simpl.
    edestruct (IH reqs
                 (mkWorld (mInstance s) false
                    (<[this := mkThreadManager (q ++ pl)]> (managers s))
                    (<[t := flagged true w]> (workers s))
                    (trace s ++ [EvLock; EvPop t; EvSetIsWorking t true; EvRun cb;
                                 EvUnlock]))
                 (t :: lent)) as (s' & Hrun & Hm' & Hpool' & Hlen').
    { done. }
    { by eapply poolOf_insert. }
    { simpl in Hlen. lia. }
    { simpl. intros r Hr. rewrite length_insert. apply Hvalid. by right. }
    exists s'. rewrite reverse_cons, <- app_assoc. simpl.
    split; [done|]. split; [done|]. split; [done|].
    simpl in Hlen'. by rewrite length_insert in Hlen'.
Qed.

(** X3.  The pool is a stack: after any Workers are released one after the
    other, as many acquires return them last released first (the ledger, whose
    head is the latest loan, ends as the list of the released Workers in the
    order of their release), construct no Worker, and leave the pool as it
    was before the releases. *)
Theorem releases_then_acquires_pop_in_reverse this rels reqs s pl :
  mMutex s = false →
  poolOf s this = Some pl →
  (∀ r, r ∈ rels → r.1 < length (workers s)) →
  length reqs = length rels →
  ∃ s', run this (releases rels ++ acquires reqs) (s, []) = Some (s', rels.*1) ∧
        poolOf s' this = Some pl ∧
        length (workers s') = length (workers s).
Proof.
  intros Hm Hpool Hvalid Hlen.
  destruct (run_releases this rels s pl Hm Hpool Hvalid)
    as (s1 & Hrun1 & Hm1 & Hpool1 & Hlen1).
  destruct (run_acquires_pop this reqs (reverse rels.*1) s1 pl [] Hm1 Hpool1)
    as (s' & Hrun2 & _ & Hpool' & Hlen').
  { by rewrite length_reverse, length_fmap. }
  { intros t Ht. rewrite Hlen1. apply elem_of_reverse, list_elem_of_fmap in Ht
      as (r & -> & Hr). by apply Hvalid. }
  exists s'. rewrite run_app, Hrun1, Hrun2, reverse_involutive, app_nil_r.
  split; [done|]. split; [done|]. by rewrite Hlen', Hlen1.
Qed.

Lemma releases_then_acquires_pop_in_reverse_witness :
  ∃ s', run 0 (releases [(0, 3); (1, 4)] ++ acquires [("a", 5); ("b", 6)])
          (two_lent, []) = Some (s', [0; 1]) ∧
        poolOf s' 0 = Some [] ∧
        length (workers s') = length (workers two_lent).
Proof.
  apply (releases_then_acquires_pop_in_reverse 0 [(0, 3); (1, 4)]
           [("a", 5); ("b", 6)] two_lent []).
  - reflexivity.
  - reflexivity.
  - intros r Hr. apply elem_of_cons in Hr as [->|Hr]; [simpl; lia|].
    apply list_elem_of_singleton in Hr as ->. simpl. lia.
  - reflexivity.
Defined.

(** X4.  An acquire followed by the release of the Worker it returned leaves
    a pool that was not empty as it was; on an empty pool the pair leaves the
    newly constructed Worker in the pool. *)
Theorem acquire_then_release_pool this name onAcquire onRelease s pl :
  mMutex s = false →
  poolOf s this = Some pl →
  (∀ t, head pl = Some t → t < length (workers s)) →
  ∃ thread s1 s2,
    acquireThread this name onAcquire s = Some (thread, s1) ∧
    releaseThread this thread onRelease s1 = Some (tt, s2) ∧
    poolOf s2 this = Some (match pl with [] => [thread] | _ => pl end) ∧
    (pl = [] → thread = length (workers s) ∧
               length (workers s2) = S (length (workers s))) ∧
    (pl ≠ [] → length (workers s2) = length (workers s)).
Proof.
  intros Hm Hpool Htop. apply poolOf_Some in Hpool.
  destruct pl as [|top rest].
  - eexists _, _, _. split; [by eapply acquireThread_new|].
    split.
    { eapply releaseThread_eq; simpl; [done..|]. by apply list_lookup_middle. }
    simpl. split; [by eapply poolOf_insert|].
    split; [|done]. intros _. split; [done|].
    rewrite length_insert, length_app. simpl. lia.
  - destruct (lookup_lt_is_Some_2 (workers s) top) as [w Hw]; [by apply Htop|].
    eexists _, _, _. split; [by eapply acquireThread_reuse|].
    split.
    { eapply releaseThread_eq; simpl; [done| |].
      - by apply list_lookup_insert_eq, (lookup_lt_Some _ _ _ Hpool).
      - by apply list_lookup_insert_eq, (lookup_lt_Some _ _ _ Hw). }
    simpl. split.
    { unfold poolOf; simpl. rewrite list_insert_insert_eq.
      by rewrite list_lookup_insert_eq by by eapply lookup_lt_Some. }
    split; [done|]. intros _. by rewrite !length_insert.
Qed.

Lemma acquire_then_release_pool_witness :
  ∃ thread s1 s2,
    acquireThread 0 "render-2" 3 one_idle = Some (thread, s1) ∧
    releaseThread 0 thread 4 s1 = Some (tt, s2) ∧
    poolOf s2 0 = Some [0] ∧
    ([0] = [] → thread = length (workers one_idle) ∧
                length (workers s2) = S (length (workers one_idle))) ∧
    ([0] ≠ [] → length (workers s2) = length (workers one_idle)).
Proof.
  apply (acquire_then_release_pool 0 "render-2" 3 4 one_idle [0]).
  - reflexivity.
  - reflexivity.
  - simpl. intros t H. injection H as <-. lia.
Defined.

(** ** How many Workers a run constructs *)

(** Under the invariant the pool and the ledger hold as many entries as
    there are Workers. *)
Lemma pool_ledger_count this st pl :
  pool_ledger_inv this st →
  poolOf st.1 this = Some pl →
  length (workers st.1) = length pl + length st.2.
Proof.
  intros (_ & pl' & Hpool' & Hnd & Hall) Hpool.
  rewrite Hpool in Hpool'. injection Hpool' as <-.
  assert (pl ++ st.2 ≡ₚ seq 0 (length (workers st.1))) as Hperm.
  { apply NoDup_Permutation; [done|apply NoDup_seq|].
    intros p. rewrite Hall, elem_of_seq. lia. }
  apply Permutation_length in Hperm.
  rewrite length_app, length_seq in Hperm. lia.
Qed.

Lemma peak_loans_ge this calls st : length st.2 ≤ peak_loans this calls st.
Proof. destruct calls; simpl; lia. Qed.

(** A permitted call constructs a Worker only when every Worker is lent
    out. *)
Lemma call_constructs_at_peak this c st st' :
  pool_ledger_inv this st →
  call this c st = Some st' →
  length (workers st'.1) = length (workers st.1) ∨
  (length (workers st'.1) = S (length (workers st.1)) ∧
   length st'.2 = length (workers st'.1)).
Proof.
  destruct st as [s lent]. intros Hinv Hcall.
  destruct c as [name cb|thread cb]; simpl in *.
  - destruct (acquireThread this name cb s) as [[t s']|] eqn:Hacq; [|done].
    injection Hcall as <-. simpl.
    apply acquireThread_inv in Hacq
      as (_ & [pl] & Hthis & [(Hpl & -> & ->)|(rest & w & _ & _ & ->)]); simpl in *.
    + right. rewrite length_app. simpl. split; [lia|].
      assert (poolOf s this = Some []) as Hpool
        by (unfold poolOf; by rewrite Hthis, <- Hpl).
      pose proof (pool_ledger_count this (s, lent) [] Hinv Hpool) as Hcount.
      simpl in Hcount. lia.
    + left. by rewrite length_insert.
  - destruct (releaseThread this thread cb s) as [[u s']|] eqn:Hrel; [|done].
    injection Hcall as <-. simpl.
    apply releaseThread_inv in Hrel as (_ & m & w & _ & _ & ->); simpl.
    left. by rewrite length_insert.
Qed.

(** X5.  Under the lending discipline the manager constructs no more Workers
    than were ever needed at once: after a run, the number of Workers in
    existence is the larger of their number before the run and the peak number
    of Workers lent out during it, and it equals the size of the pool plus
    the number of Workers lent out. *)
Theorem workers_constructed_match_peak_loans this calls st :
  pool_ledger_inv this st →
  disciplined this calls st = true →
  ∃ s' lent' pl,
    run this calls st = Some (s', lent') ∧
    poolOf s' this = Some pl ∧
    length (workers s') = length (workers st.1) `max` peak_loans this calls st ∧
    length (workers s') = length pl + length lent'.
Proof.
  revert st. induction calls as [|c rest IH]; intros st Hinv Hd.
  - pose proof Hinv as (_ & pl & Hpool & _).
    pose proof (pool_ledger_count this st pl Hinv Hpool) as Hcount.
    destruct st as [s lent]. exists s, lent, pl. simpl in *.
    split; [done|]. split; [done|]. split; [lia|done].
  - simpl in Hd. apply andb_prop in Hd as [Hperm Hd].
    destruct (call_keeps_inv this c st Hinv Hperm) as (st1 & Hcall & Hinv1).
    rewrite Hcall in Hd.
    destruct (IH st1 Hinv1 Hd) as (s' & lent' & pl & Hrun & Hpool & Hmax & Hcount).
    exists s', lent', pl. simpl. rewrite Hcall.
    split; [done|]. split; [done|]. split; [|done].
    pose proof Hinv as (_ & pl0 & Hpool0 & _).
    pose proof (pool_ledger_count this st pl0 Hinv Hpool0) as Hcount0.
    pose proof (peak_loans_ge this rest st1) as Hge.
    destruct (call_constructs_at_peak this c st st1 Hinv Hcall) as [Heq|[Heq Hall]];
      lia.
Qed.

Lemma workers_constructed_match_peak_loans_witness :
  ∃ s' lent' pl,
    run 0 [CallAcquire "render-1" 1; CallAcquire "render-2" 2; CallRelease 0 3;
           CallAcquire "render-3" 4] (booted, []) = Some (s', lent') ∧
    poolOf s' 0 = Some pl ∧
    length (workers s') = 0 `max` 2 ∧
    length (workers s') = length pl + length lent'.
Proof.
  apply (workers_constructed_match_peak_loans 0
           [CallAcquire "render-1" 1; CallAcquire "render-2" 2; CallRelease 0 3;
            CallAcquire "render-3" 4] (booted, [])).
  - split; [reflexivity|]. exists []. split; [reflexivity|]. simpl.
    split; [apply NoDup_nil_2|].
    intros p. split; [intros H; inversion H|intros H; inversion H].
  - vm_compute. reflexivity.
Defined.

(** ** Calls of any of the three functions *)

Lemma getInstance_held s : mMutex s = true → getInstance s = None.
Proof. intros H. unfold getInstance, bind, lock_guard. by rewrite H. Qed.

Lemma getInstance_inv s r s' :
  getInstance s = Some (r, s') →
  mMutex s = false ∧
  ((mInstance s = None ∧ r = Some (length (managers s)) ∧
    s' = mkWorld (Some (length (managers s))) false
           (managers s ++ [mkThreadManager []]) (workers s)
           (trace s ++ [EvLock; EvTestInstance true;
                        EvNewManager (length (managers s)); EvUnlock]))
   ∨
   (∃ p, mInstance s = Some p ∧ r = Some p ∧
    s' = mkWorld (Some p) false (managers s) (workers s)
           (trace s ++ [EvLock; EvTestInstance false; EvUnlock]))).
Proof.
  intros Hget.
  destruct (mMutex s) eqn:Hm; [by rewrite getInstance_held in Hget|].
  split; [done|]. destruct (mInstance s) as [p|] eqn:Hi.
  - right. rewrite (getInstance_again s p Hm Hi) in Hget.
    simplify_eq. by exists p.
  - left. rewrite (getInstance_first s Hm Hi) in Hget. by simplify_eq.
Qed.

Ltac no_such_event :=
  let H := fresh in
  intros H; repeat (apply elem_of_cons in H as [H|H]; [done|]);
  by apply elem_of_nil in H.

(** X6.  Each of the three functions holds the mutex for the whole call, on
    every path: a call that returns found the mutex free and leaves it free,
    and its steps are one lock, steps that neither lock nor unlock, and one
    unlock. *)
Theorem every_call_is_locked_throughout c s s' :
  api c s = Some s' → locked_throughout s s'.
Proof.
  intros Hapi. unfold locked_throughout. destruct c as [|this name cb|this thread cb];
    simpl in Hapi.
  - destruct (getInstance s) as [[r s1]|] eqn:Hget; simplify_eq/=.
    apply getInstance_inv in Hget as (Hm & [(_ & _ & ->)|(p & _ & _ & ->)]); simpl.
    + split; [done|]. split; [done|]. eexists [_; _].
      split; [done|]. split; no_such_event.
    + split; [done|]. split; [done|]. eexists [_].
      split; [done|]. split; no_such_event.
  - destruct (acquireThread this name cb s) as [[t s1]|] eqn:Hacq; simplify_eq/=.
    apply acquireThread_inv in Hacq
      as (Hm & m & _ & [(_ & _ & ->)|(rest & w & _ & _ & ->)]); simpl.
    + split; [done|]. split; [done|]. eexists [_; _; _].
      split; [done|]. split; no_such_event.
    + split; [done|]. split; [done|]. eexists [_; _; _].
      split; [done|]. split; no_such_event.
  - destruct (releaseThread this thread cb s) as [[u s1]|] eqn:Hrel; simplify_eq/=.
    apply releaseThread_inv in Hrel as (Hm & m & w & _ & _ & ->); simpl.
    split; [done|]. split; [done|]. eexists [_; _; _; _].
    split; [done|]. split; no_such_event.
Qed.

Lemma every_call_is_locked_throughout_witness :
  locked_throughout one_idle
    (mkWorld (Some 0) false [mkThreadManager []]
       [mkWorkerThread "render-1" Odd true []]
       (trace one_idle ++
        [EvLock; EvPop 0; EvSetIsWorking 0 true; EvRun 7; EvUnlock])).
Proof.
  apply (every_call_is_locked_throughout (ApiAcquire 0 "render-2" 7) one_idle).
  reflexivity.
Defined.

(** One call keeps an instance that exists, constructs a manager only when
    there is none, and keeps [mInstance] the address of a manager. *)
Lemma api_instance c s s' :
  api c s = Some s' →
  (∀ p, mInstance s = Some p →
        mInstance s' = Some p ∧ length (managers s') = length (managers s)) ∧
  length (managers s) ≤ length (managers s') ∧
  (mInstance s' = None → length (managers s') = length (managers s)) ∧
  (mInstance s = None → length (managers s') ≤ S (length (managers s))) ∧
  (instance_valid s → instance_valid s').
Proof.
  intros Hapi. unfold instance_valid.
  destruct c as [|this name cb|this thread cb]; simpl in Hapi.
  - destruct (getInstance s) as [[r s1]|] eqn:Hget; simplify_eq/=.
    apply getInstance_inv in Hget as (Hm & [(Hi & _ & ->)|(p & Hi & _ & ->)]);
      simpl; rewrite Hi.
    + split; [done|]. rewrite length_app; simpl.
      split; [lia|]. split; [done|]. split; [lia|].
      intros _ p [= <-]. apply lookup_lt_is_Some. rewrite length_app; simpl. lia.
    + split; [by intros ? [= <-]|]. split; [done|]. split; [done|].
      split; [done|]. intros Hv q [= <-]. by apply Hv.
  - destruct (acquireThread this name cb s) as [[t s1]|] eqn:Hacq; simplify_eq/=.
    apply acquireThread_inv in Hacq
      as (Hm & m & _ & [(_ & _ & ->)|(rest & w & _ & _ & ->)]); simpl;
      rewrite ?length_insert; repeat split; auto with lia.
    intros Hv p Hp. apply lookup_lt_is_Some. rewrite length_insert.
    by apply lookup_lt_is_Some, Hv.
  - destruct (releaseThread this thread cb s) as [[u s1]|] eqn:Hrel; simplify_eq/=.
    apply releaseThread_inv in Hrel as (Hm & m & w & _ & _ & ->); simpl.
    rewrite ?length_insert; repeat split; auto with lia.
    intros Hv p Hp. apply lookup_lt_is_Some. rewrite length_insert.
    by apply lookup_lt_is_Some, Hv.
Qed.

(** X7.  In every sequence of calls of the three functions, in any order and
    on any manager, at most one [ThreadManager] is constructed; once
    [mInstance] is set it never changes and no further manager is
    constructed; and [mInstance] stays the address of a manager. *)
Theorem instance_survives_all_calls cs s s' :
  api_run cs s = Some s' →
  instance_valid s →
  instance_valid s' ∧
  length (managers s) ≤ length (managers s') ∧
  (mInstance s = None → length (managers s') ≤ S (length (managers s))) ∧
  (∀ p, mInstance s = Some p →
        mInstance s' = Some p ∧ length (managers s') = length (managers s)).
Proof.
  revert s. induction cs as [|c rest IH]; intros s Hrun Hv; simpl in Hrun.
  - injection Hrun as <-. repeat split; auto with lia.
  - destruct (api c s) as [s1|] eqn:Hapi; [|done].
    destruct (api_instance c s s1 Hapi) as (Hkeep & Hmono & Hnone & Hone & Hv1).
    destruct (IH s1 Hrun (Hv1 Hv)) as (Hv' & Hmono' & Hone' & Hkeep').
    split; [done|]. split; [lia|]. split.
    + intros Hi. destruct (mInstance s1) as [p1|] eqn:Hi1.
      * destruct (Hkeep' p1 eq_refl) as [_ Hlen]. specialize (Hone Hi). lia.
      * specialize (Hnone eq_refl). specialize (Hone' eq_refl). lia.
    + intros p Hp. destruct (Hkeep p Hp) as [Hp1 Hlen1].
      destruct (Hkeep' p Hp1) as [Hp' Hlen']. split; [done|]. lia.
Qed.

Lemma instance_survives_all_calls_witness :
  instance_valid one_idle ∧
  length (managers startup) ≤ length (managers one_idle) ∧
  (mInstance startup = None →
   length (managers one_idle) ≤ S (length (managers startup))) ∧
  (∀ p, mInstance startup = Some p →
        mInstance one_idle = Some p ∧
        length (managers one_idle) = length (managers startup)).
Proof.
  apply (instance_survives_all_calls
           [ApiGetInstance; ApiAcquire 0 "render-1" 1; ApiRelease 0 0 2]
           startup one_idle).
  - reflexivity.
  - intros p H. discriminate H.
Defined.

(** X8.  First use: where no instance exists yet, [getInstance] followed by
    [acquireThread] on the manager it returned always returns; the manager is
    new and its pool is empty, so the acquire constructs a Worker, marks it
    working and leaves the pool empty. *)
Theorem first_use_constructs_manager_and_worker name onAcquire s :
  mMutex s = false →
  mInstance s = None →
  ∃ this s1 thread s2,
    getInstance s = Some (Some this, s1) ∧
    acquireThread this name onAcquire s1 = Some (thread, s2) ∧
    this = length (managers s) ∧
    thread = length (workers s) ∧
    mInstance s2 = Some this ∧
    poolOf s2 this = Some [] ∧
    isWorking s2 thread = Some true.
Proof.
  intros Hm Hi.
  eexists _, _, _, _. split; [by apply getInstance_first|].
  split.
  { eapply (acquireThread_new _ _ _ _ (mkThreadManager [])); simpl; [done| |done].
    by apply list_lookup_middle. }
  simpl. split; [done|]. split; [done|]. split; [done|].
  split.
  - unfold poolOf; simpl. by rewrite list_lookup_middle.
  - unfold isWorking; simpl. by rewrite list_lookup_middle.
Qed.

Lemma first_use_constructs_manager_and_worker_witness :
  ∃ this s1 thread s2,
    getInstance startup = Some (Some this, s1) ∧
    acquireThread this "render-1" 1 s1 = Some (thread, s2) ∧
    this = 0 ∧
    thread = 0 ∧
    mInstance s2 = Some this ∧
    poolOf s2 this = Some [] ∧
    isWorking s2 thread = Some true.
Proof.
  apply (first_use_constructs_manager_and_worker "render-1" 1 startup).
  - reflexivity.
  - reflexivity.
Defined.

(** X9.  A call of [acquireThread] or [releaseThread] touches one Worker
    only, the one it returns or is given: every other Worker object, the
    pools of the other managers and [mInstance] are as before. *)
Theorem call_touches_one_worker this c s lent s' lent' :
  call this c (s, lent) = Some (s', lent') →
  ∃ thread,
    match c with
    | CallAcquire _ _ => lent' = thread :: lent
    | CallRelease given _ => thread = given
    end ∧
    (∀ q, q ≠ thread → workers s' !! q = workers s !! q) ∧
    (∀ other, other ≠ this → managers s' !! other = managers s !! other) ∧
    mInstance s' = mInstance s.
Proof.
  intros Hcall. destruct c as [name cb|given cb]; simpl in Hcall.
  - destruct (acquireThread this name cb s) as [[t s1]|] eqn:Hacq; simplify_eq/=.
    exists t. split; [done|].
    apply acquireThread_inv in Hacq
      as (_ & m & _ & [(_ & -> & ->)|(rest & w & _ & _ & ->)]); simpl.
    + split; [|done]. intros q Hq.
      destruct (decide (q < length (workers s))) as [Hlt|Hge].
      * by rewrite lookup_app_l.
      * rewrite !lookup_ge_None_2; [done|lia|].
        rewrite length_app; simpl. lia.
    + split; [|split; [|done]].
      * intros q Hq. by rewrite list_lookup_insert_ne.
      * intros other Hne. by rewrite list_lookup_insert_ne.
  - destruct (releaseThread this given cb s) as [[u s1]|] eqn:Hrel; simplify_eq/=.
    exists given. split; [done|].
    apply releaseThread_inv in Hrel as (_ & m & w & _ & _ & ->); simpl.
    split; [|split; [|done]].
    + intros q Hq. by rewrite list_lookup_insert_ne.
    + intros other Hne. by rewrite list_lookup_insert_ne.
Qed.

Lemma call_touches_one_worker_witness :
  ∃ thread,
    thread = 0 ∧
    (∀ q, q ≠ thread →
          [mkWorkerThread "render-1" Odd false [];
           mkWorkerThread "render-2" Odd true []] !! q = workers two_lent !! q) ∧
    (∀ other, other ≠ 0 →
              [mkThreadManager [0]] !! other = managers two_lent !! other) ∧
    Some 0 = mInstance two_lent.
Proof.
  apply (call_touches_one_worker 0 (CallRelease 0 3) two_lent [1; 0]
           (mkWorld (Some 0) false [mkThreadManager [0]]
              [mkWorkerThread "render-1" Odd false [];
               mkWorkerThread "render-2" Odd true []]
              (trace two_lent ++
               [EvLock; EvSetIsWorking 0 false; EvReleaseQueue 0; EvRun 3;
                EvPush 0; EvUnlock]))
           [1]).
  reflexivity.
Defined.

(** X10.  [getInstance] disturbs no pool and no Worker: the Worker objects
    and every manager that existed before the call are as they were. *)
Theorem getInstance_touches_no_pool s r s' :
  getInstance s = Some (r, s') →
  workers s' = workers s ∧
  ∀ this pl, poolOf s this = Some pl → poolOf s' this = Some pl.
Proof.
  intros Hget.
  apply getInstance_inv in Hget as (_ & [(_ & _ & ->)|(p & _ & _ & ->)]); simpl.
  - split; [done|]. intros this pl Hpool. apply poolOf_Some in Hpool.
    unfold poolOf; simpl. by rewrite lookup_app_l_Some with (x := mkThreadManager pl).
  - done.
Qed.

Lemma getInstance_touches_no_pool_witness :
  workers (mkWorld (Some 0) false [mkThreadManager [0]]
             [mkWorkerThread "render-1" Odd false []]
             (trace one_idle ++ [EvLock; EvTestInstance false; EvUnlock]))
    = workers one_idle ∧
  ∀ this pl, poolOf one_idle this = Some pl →
             poolOf (mkWorld (Some 0) false [mkThreadManager [0]]
                       [mkWorkerThread "render-1" Odd false []]
                       (trace one_idle ++ [EvLock; EvTestInstance false; EvUnlock]))
               this = Some pl.
Proof.
  apply (getInstance_touches_no_pool one_idle (Some 0)). reflexivity.
Defined.

(** ** Native handles *)

(** X11.  A native pointer handed to the JVM as a [jlong] and cast back, as
    the bindings do with their [ref] arguments, is the same pointer, for
    pointers of up to 64 bits. *)
Theorem handle_round_trip ptr_bits address :
  (0 < ptr_bits ≤ 64)%Z →
  (0 ≤ address < 2 ^ ptr_bits)%Z →
  pointer_of_jlong ptr_bits (jlong_of_pointer address) = address ∧
  (- 2 ^ 63 ≤ jlong_of_pointer address < 2 ^ 63)%Z.
Proof.
  intros Hbits Haddr. unfold pointer_of_jlong, jlong_of_pointer, to_jlong.
  split; [|by apply (to_signed_range 64)].
  destruct (to_signed_congruent 64 address) as [q ->]; [lia|].
  replace (2 ^ 64)%Z with (2 ^ (64 - ptr_bits) * 2 ^ ptr_bits)%Z
    by (rewrite <- Z.pow_add_r by lia; f_equal; lia).
  replace (address - q * (2 ^ (64 - ptr_bits) * 2 ^ ptr_bits))%Z
    with (address + (- q * 2 ^ (64 - ptr_bits)) * 2 ^ ptr_bits)%Z by lia.
  rewrite Z.mod_add by (apply Z.pow_nonzero; lia).
  by apply Z.mod_small.
Qed.

Lemma handle_round_trip_witness :
  pointer_of_jlong 64 (jlong_of_pointer (2 ^ 63 + 4096)) = (2 ^ 63 + 4096)%Z ∧
  (- 2 ^ 63 ≤ jlong_of_pointer (2 ^ 63 + 4096) < 2 ^ 63)%Z.
Proof.
  apply (handle_round_trip 64 (2 ^ 63 + 4096)).
  - lia.
  - lia.
Defined.

(** ** The is-working flag *)

(** X12.  Under the lending discipline, with [setIsWorking] setting the
    flag, the flag of a Worker tells where it is: after any run every Worker
    lent out is marked working and every Worker in the pool is marked not
    working. *)
Theorem working_flag_tells_lent_out this calls st :
  pool_ledger_inv this st →
  flags_follow_ledger st →
  disciplined this calls st = true →
  ∃ s' lent' pl,
    run this calls st = Some (s', lent') ∧
    poolOf s' this = Some pl ∧
    (∀ p, p ∈ lent' → isWorking s' p = Some true) ∧
    (∀ p, p ∈ pl → isWorking s' p = Some false).
Proof.
  intros Hinv Hflags Hd.
  destruct (disciplined_run_keeps_inv this calls st Hinv Hd)
    as ([s' lent'] & Hrun & Hinv').
  pose proof (disciplined_run_keeps_flags this calls st (s', lent')
                Hinv Hflags Hd Hrun) as Hflags'.
  destruct Hinv' as (_ & pl & Hpool & Hnd & Hall); simpl in *.
  exists s', lent', pl. split; [done|]. split; [done|].
  apply NoDup_app in Hnd as (_ & Hdisj & _).
  unfold isWorking, flags_follow_ledger, ptr in *.
  split; intros p Hp.
  - destruct (lookup_lt_is_Some_2 (workers s') p) as [w Hw].
    { apply Hall, elem_of_app. by right. }
    rewrite Hw. simpl. f_equal. by apply (Hflags' p w Hw).
  - destruct (lookup_lt_is_Some_2 (workers s') p) as [w Hw].
    { apply Hall, elem_of_app. by left. }
    rewrite Hw. simpl. f_equal.
    destruct (mIsWorking w) eqn:Hb; [|done].
    exfalso. apply (Hdisj p Hp). by apply (Hflags' p w Hw).
Qed.

Lemma working_flag_tells_lent_out_witness :
  ∃ s' lent' pl,
    run 0 [CallAcquire "render-1" 1; CallAcquire "render-2" 2; CallRelease 0 3]
      (booted, []) = Some (s', lent') ∧
    poolOf s' 0 = Some pl ∧
    (∀ p, p ∈ lent' → isWorking s' p = Some true) ∧
    (∀ p, p ∈ pl → isWorking s' p = Some false).
Proof.
  apply (working_flag_tells_lent_out 0
           [CallAcquire "render-1" 1; CallAcquire "render-2" 2; CallRelease 0 3]
           (booted, [])).
  - split; [reflexivity|]. exists []. split; [reflexivity|]. simpl.
    split; [apply NoDup_nil_2|].
    intros p. split; [intros H; inversion H|intros H; inversion H].
  - intros p w H. discriminate H.
  - vm_compute. reflexivity.
Defined.
